(** * wgnl: the Linux generic-netlink codec of the WireGuard control client

    A shallow embedding of [internal/wgnl/client_linux.go]: the request
    encoder [configAttrs], the response decoder [parseDevice] with its
    nested attribute walks, the primitive decoders and the multi-message
    merge [mergeDevices], followed by the properties stated about them.
    [newClient], [initClient], [Close] and [Devices], which only open,
    close and drive the connection, are left out.

    Conventions of the embedding.
    - A Go slice is a [list]; a nil slice and an empty slice are both [[]].
    - A Go [error] result is a value of [result]; [Ok] is a nil error.
    - A pointer that may be nil ([*Key], [*net.UDPAddr]) is an [option].
    - Unsigned and signed machine integers are [Z] with the wrap-around
      written where the source converts.
    - The host byte order, which [nlenc.NativeEndian] and the [unsafe]
      struct casts depend on, is the section variable [native]. *)

From Stdlib Require Import ZArith Lia.
From Stdlib Require Strings.Byte.
From stdpp Require Import base option list vector gmap strings.

Local Open Scope Z_scope.

Abbreviation byte := Byte.byte.

(** ** Bytes *)

#[global] Instance byte_eq_dec : EqDecision byte := Byte.byte_eq_dec.

#[global] Instance byte_countable : Countable byte :=
  inj_countable Byte.to_N Byte.of_N Byte.of_to_N.

Definition byte_to_Z (b : byte) : Z := Z.of_N (Byte.to_N b).

(** [byte(z)]: conversion of an integer to a byte keeps the low 8 bits. *)
Definition byte_of_Z (z : Z) : byte :=
  default Byte.x00 (Byte.of_N (Z.to_N (z mod 256))).

(** ** Byte order ([encoding/binary], [nlenc]) *)

Inductive ByteOrder := LittleEndian | BigEndian.

Fixpoint le_uint (b : list byte) : Z :=
  match b with
  | [] => 0
  | x :: r => byte_to_Z x + 256 * le_uint r
  end.

Fixpoint le_bytes (n : nat) (v : Z) : list byte :=
  match n with
  | O => []
  | S n' => byte_of_Z v :: le_bytes n' (v / 256)
  end.

(** [bo.UintN(b)]: the unsigned integer held by all of [b]. *)
Definition ByteOrder_Uint (bo : ByteOrder) (b : list byte) : Z :=
  match bo with
  | LittleEndian => le_uint b
  | BigEndian => le_uint (reverse b)
  end.

(** [bo.PutUintN]: the [n]-byte representation of [v]. *)
Definition ByteOrder_PutUint (bo : ByteOrder) (n : nat) (v : Z) : list byte :=
  match bo with
  | LittleEndian => le_bytes n v
  | BigEndian => reverse (le_bytes n v)
  end.

(** Conversions between fixed-width integers. *)
Definition uint16 (z : Z) : Z := z mod 2 ^ 16.
Definition uint32 (z : Z) : Z := z mod 2 ^ 32.

(** [int(x)] of a [uint64] on a 64-bit platform. *)
Definition int_of_uint64 (z : Z) : Z :=
  if z <? 2 ^ 63 then z else z - 2 ^ 64.

(** [int64] read from its unsigned bit pattern. *)
Definition int64_of_bits (z : Z) : Z := int_of_uint64 z.

(** ** Errors *)

(** The error taxonomy of the codec. *)
Inductive ErrorKind :=
| Truncated
| Malformed
| InvalidLength
| NotFound
| Transport.

Inductive error :=
| errTruncated
    (* netlink: a declared record length exceeds the remaining bytes *)
| errMalformed
    (* netlink: a record shorter than its own header *)
| errAttrWidth (typ : Z) (want got : nat)
    (* netlink: attribute read as an integer of another width *)
| errEncode
    (* netlink: attribute length not representable on the wire *)
| errKeySize (n : nat)
    (* wgtypes: incorrect key size: n *)
| errIPSize (n : nat)
    (* wireguardnl: unexpected IP address size: n *)
| errSockaddrSize (n : nat)
    (* wireguardnl: unexpected sockaddr size: n *)
| errTimespecSize (n : nat)
    (* wireguardnl: unexpected timespec size: n *)
| ErrNotExist
    (* os.ErrNotExist *)
| Errno (e : Z)
    (* a unix.Errno surfaced by the transport *).

#[global] Instance error_eq_dec : EqDecision error.
Proof. solve_decision. Defined.

Definition error_kind (e : error) : ErrorKind :=
  match e with
  | errTruncated => Truncated
  | errMalformed | errEncode => Malformed
  | errAttrWidth _ _ _ | errKeySize _ | errIPSize _
  | errSockaddrSize _ | errTimespecSize _ => InvalidLength
  | ErrNotExist => NotFound
  | Errno _ => Transport
  end.

Definition ENOENT : Z := 2.
Definition ENODEV : Z := 19.
Definition ENOTSUP : Z := 95.

(** [os.IsNotExist]: the sentinel itself, or the errno [ENOENT]. *)
Definition os_IsNotExist (e : error) : bool :=
  match e with
  | ErrNotExist => true
  | Errno n => n =? ENOENT
  | _ => false
  end.

(** ** The error monad *)

Inductive result (A : Type) :=
| Ok (a : A)
| Err (e : error).
Arguments Ok {A} a.
Arguments Err {A} e.

#[global] Instance result_ret : MRet result := @Ok.
#[global] Instance result_bind : MBind result := λ A B f m,
  match m with
  | Ok a => f a
  | Err e => Err e
  end.

(** A loop body run over a list, stopping at the first error. *)
Fixpoint foldM {A S : Type} (f : S → A → result S) (s : S) (l : list A)
  : result S :=
  match l with
  | [] => Ok s
  | a :: l' => s' ← f s a; foldM f s' l'
  end.

(** A fallible function applied to every element, in order. *)
Fixpoint traverse {A B : Type} (f : A → result B) (l : list A)
  : result (list B) :=
  match l with
  | [] => Ok []
  | a :: l' => b ← f a; bs ← traverse f l'; Ok (b :: bs)
  end.

(** ** Byte strings ([nlenc]) *)

(** [nlenc.Bytes]: the bytes of [s] followed by one NUL terminator. *)
Definition nlenc_Bytes (s : string) : list byte :=
  String.list_byte_of_string s ++ [Byte.x00].

Fixpoint trim_right_nul (b : list byte) : list byte :=
  match b with
  | [] => []
  | x :: r =>
    match trim_right_nul r with
    | [] => if decide (x = Byte.x00) then [] else [x]
    | r' => x :: r'
    end
  end.

(** [nlenc.String]: the string held by [b] without its trailing NUL
    bytes. *)
Definition nlenc_String (b : list byte) : string :=
  String.string_of_list_byte (trim_right_nul b).

(** ** Type codes (package [wgh]) *)

(** Modelled from the spec: package [wgh], which holds the generated
    constants, is not part of the sources at hand.  The names are the
    well-known type codes the external interface lists; the numbers are
    those of the kernel's [wireguard.h].  Only their being pairwise
    distinct within a level matters to the decoders. *)
Definition CmdGetDevice : Z := 0.
Definition CmdSetDevice : Z := 1.
Definition GenlVersion : Z := 1.

Definition DeviceAIfindex : Z := 1.
Definition DeviceAIfname : Z := 2.
Definition DeviceAPrivateKey : Z := 3.
Definition DeviceAPublicKey : Z := 4.
Definition DeviceAListenPort : Z := 6.
Definition DeviceAFwmark : Z := 7.
Definition DeviceAPeers : Z := 8.

Definition PeerAPublicKey : Z := 1.
Definition PeerAPresharedKey : Z := 2.
Definition PeerAEndpoint : Z := 4.
Definition PeerAPersistentKeepaliveInterval : Z := 5.
Definition PeerALastHandshakeTime : Z := 6.
Definition PeerARxBytes : Z := 7.
Definition PeerATxBytes : Z := 8.
Definition PeerAAllowedips : Z := 9.

Definition AllowedipAFamily : Z := 1.
Definition AllowedipAIpaddr : Z := 2.
Definition AllowedipACidrMask : Z := 3.

(** Constants of [golang.org/x/sys/unix] on Linux and of [net]. *)
Definition AF_INET : Z := 2.
Definition AF_INET6 : Z := 10.
Definition SizeofSockaddrInet4 : nat := 16.
Definition SizeofSockaddrInet6 : nat := 28.
Definition sizeofTimespec : nat := 16.
Definition IPv4len : nat := 4.
Definition IPv6len : nat := 16.

(** ** Netlink attributes (package [netlink]) *)

(** [netlink.Attribute].  Its [Length] field is derived from [Data] when
    a record is written and is never read by the decoders, so the
    embedding leaves it out. *)
Record Attribute := mkAttribute {
  a_Type : Z;
  a_Data : list byte
}.

#[global] Instance Attribute_eq_dec : EqDecision Attribute.
Proof. solve_decision. Defined.

Definition nlaHeaderLen : nat := 4.

(** [nlaAlign]: [n] rounded up to the 4-byte attribute alignment. *)
Definition nlaAlign (n : nat) : nat := ((n + 3) / 4 * 4)%nat.

Section Netlink.

Variable native : ByteOrder.

(** Modelled from the spec: [netlink.UnmarshalAttributes], the
    attribute walker, belongs to a package outside the sources at
    hand.  A record is a 2-byte length that counts the 4-byte header,
    a 2-byte type code and the value bytes; the next record starts at
    the end of this one rounded up to 4 bytes.  A declared length past
    the end of the buffer is [Truncated]; one smaller than the header
    is [Malformed]; the walk neither recovers nor skips.  Every round
    consumes at least the header, so the length of the buffer is
    enough fuel. *)
Fixpoint unmarshal_go (fuel : nat) (b : list byte)
  : result (list Attribute) :=
  match b with
  | [] => Ok []
  | _ :: _ =>
    match fuel with
    | O => Err errMalformed
    | S fuel' =>
      if (length b <? nlaHeaderLen)%nat then Err errTruncated
      else
        let len := Z.to_nat (ByteOrder_Uint native (take 2 b)) in
        let typ := ByteOrder_Uint native (take 2 (drop 2 b)) in
        if (len <? nlaHeaderLen)%nat then Err errMalformed
        else if (length b <? len)%nat then Err errTruncated
        else
          rest ← unmarshal_go fuel' (drop (nlaAlign len) b);
          Ok (mkAttribute typ (take (len - nlaHeaderLen) (drop nlaHeaderLen b))
                :: rest)
    end
  end.

Definition UnmarshalAttributes (b : list byte) : result (list Attribute) :=
  unmarshal_go (length b) b.

(** Modelled from the spec: one record on the wire, as
    [netlink.MarshalAttributes] frames it: length, type, value and
    zero padding up to the alignment.  A length that does not fit the
    16-bit field is an encode error. *)
Definition marshal_attr (a : Attribute) : result (list byte) :=
  let len := (nlaHeaderLen + length (a_Data a))%nat in
  if 65535 <? Z.of_nat len then Err errEncode
  else Ok (ByteOrder_PutUint native 2 (Z.of_nat len)
             ++ ByteOrder_PutUint native 2 (a_Type a)
             ++ a_Data a
             ++ replicate (nlaAlign len - len) Byte.x00).

Definition MarshalAttributes (attrs : list Attribute)
  : result (list byte) :=
  bs ← traverse marshal_attr attrs; Ok (concat bs).

(** Modelled from the spec: [netlink.AttributeDecoder].  The decoder
    walks the buffer once when it is created; [Next] then steps through
    the records and stops at the first error, which [Err] reports.  A
    loop [for ad.Next() { ... }] followed by [ad.Err()] is therefore
    [foldM] of the loop body over the records. *)
Definition NewAttributeDecoder (b : list byte) : result (list Attribute) :=
  UnmarshalAttributes b.

(** [ad.Uint8], [ad.Uint16], [ad.Uint32], [ad.Uint64]: the value of the
    current record read in the host byte order; a record of another
    width sets the decoder's error. *)
Definition ad_Uint (width : nat) (a : Attribute) : result Z :=
  if decide (length (a_Data a) = width)
  then Ok (ByteOrder_Uint native (a_Data a))
  else Err (errAttrWidth (a_Type a) width (length (a_Data a))).

Definition ad_Uint8 := ad_Uint 1.
Definition ad_Uint16 := ad_Uint 2.
Definition ad_Uint32 := ad_Uint 4.
Definition ad_Uint64 := ad_Uint 8.

(** [ad.String] *)
Definition ad_String (a : Attribute) : string := nlenc_String (a_Data a).

(** [ad.Do(fn)]: runs [fn] on the value bytes; its error becomes the
    decoder's. *)
Definition ad_Do {A : Type} (fn : list byte → result A) (a : Attribute)
  : result A := fn (a_Data a).

(** [nlenc.Uint32Bytes] *)
Definition nlenc_Uint32Bytes (v : Z) : list byte :=
  ByteOrder_PutUint native 4 v.

End Netlink.

(** ** The data model (packages [wgtypes], [net], [time]) *)

Definition KeyLen : nat := 32.

(** [wgtypes.Key], a [[32]byte] array. *)
Abbreviation Key := (vec byte KeyLen).

(** The zero value of [Key]. *)
Definition zeroKey : Key := vreplicate KeyLen Byte.x00.

(** [var k [n]byte; copy(k[:], b)]: the first [n] bytes of [b] over a
    zeroed array. *)
Fixpoint copy_array (n : nat) (b : list byte) : vec byte n :=
  match n with
  | O => [#]
  | S n' =>
    match b with
    | [] => Byte.x00 ::: copy_array n' []
    | x :: r => x ::: copy_array n' r
    end
  end.

(** Modelled from the spec: [wgtypes.NewKey], the key decoder, lives in
    package [wgtypes], which is not part of the sources at hand.  It
    accepts exactly 32 bytes and fails on any other length. *)
Definition NewKey (b : list byte) : result Key :=
  if decide (length b = KeyLen) then Ok (copy_array KeyLen b)
  else Err (errKeySize (length b)).

(** [net.UDPAddr]; the zone is always empty here. *)
Record UDPAddr := mkUDPAddr {
  udp_IP : list byte;
  udp_Port : Z
}.

(** [net.IPNet] *)
Record IPNet := mkIPNet {
  ipn_IP : list byte;
  ipn_Mask : list byte
}.

(** [time.Time], held as seconds and nanoseconds since the Unix epoch. *)
Record Time := mkTime {
  t_sec : Z;
  t_nsec : Z
}.

(** The zero [time.Time]: January 1, year 1, 00:00:00 UTC. *)
Definition zeroTime : Time := mkTime (-62135596800) 0.

(** [time.Unix]: nanoseconds outside [0, 1e9) carry into the seconds. *)
Definition time_Unix (sec nsec : Z) : Time :=
  if (nsec <? 0) || (1000000000 <=? nsec) then
    let n := Z.quot nsec 1000000000 in
    let sec := sec + n in
    let nsec := nsec - n * 1000000000 in
    if nsec <? 0 then mkTime (sec - 1) (nsec + 1000000000)
    else mkTime sec nsec
  else mkTime sec nsec.

(** [mask_bytes l n]: the loop of [net.CIDRMask] over [l] bytes with [n]
    leading ones still to write. *)
Fixpoint mask_bytes (l : nat) (n : Z) : list byte :=
  match l with
  | O => []
  | S l' =>
    if 8 <=? n then Byte.xff :: mask_bytes l' (n - 8)
    else byte_of_Z (Z.lxor 255 (Z.shiftr 255 n)) :: mask_bytes l' 0
  end.

(** [net.CIDRMask] *)
Definition CIDRMask (ones bits : Z) : list byte :=
  if negb ((bits =? 8 * Z.of_nat IPv4len) || (bits =? 8 * Z.of_nat IPv6len))
  then []
  else if (ones <? 0) || (bits <? ones) then []
  else mask_bytes (Z.to_nat (bits / 8)) ones.

(** [net.IP.To4] *)
Definition To4 (ip : list byte) : list byte :=
  if decide (length ip = IPv4len) then ip
  else if decide (length ip = IPv6len
                  ∧ take 10 ip = replicate 10 Byte.x00
                  ∧ take 2 (drop 10 ip) = [Byte.xff; Byte.xff])
  then drop 12 ip
  else [].

(** [wgtypes.Peer] *)
Record Peer := mkPeer {
  p_PublicKey : Key;
  p_PresharedKey : Key;
  p_Endpoint : option UDPAddr;
  p_PersistentKeepaliveInterval : Z;
  p_LastHandshakeTime : Time;
  p_ReceiveBytes : Z;
  p_TransmitBytes : Z;
  p_AllowedIPs : list IPNet
}.

(** [wgtypes.Device] *)
Record Device := mkDevice {
  d_Name : string;
  d_PrivateKey : Key;
  d_PublicKey : Key;
  d_ListenPort : Z;
  d_FirewallMark : Z;
  d_Peers : list Peer
}.

(** The zero values [var p wgtypes.Peer] and [var d wgtypes.Device]. *)
Definition zeroPeer : Peer :=
  mkPeer zeroKey zeroKey None 0 zeroTime 0 0 [].

Definition zeroDevice : Device :=
  mkDevice "" zeroKey zeroKey 0 0 [].

(** Field assignments. *)
Definition set_p_PublicKey (p : Peer) (k : Key) : Peer :=
  mkPeer k (p_PresharedKey p) (p_Endpoint p) (p_PersistentKeepaliveInterval p)
    (p_LastHandshakeTime p) (p_ReceiveBytes p) (p_TransmitBytes p)
    (p_AllowedIPs p).
Definition set_p_PresharedKey (p : Peer) (k : Key) : Peer :=
  mkPeer (p_PublicKey p) k (p_Endpoint p) (p_PersistentKeepaliveInterval p)
    (p_LastHandshakeTime p) (p_ReceiveBytes p) (p_TransmitBytes p)
    (p_AllowedIPs p).
Definition set_p_Endpoint (p : Peer) (e : option UDPAddr) : Peer :=
  mkPeer (p_PublicKey p) (p_PresharedKey p) e (p_PersistentKeepaliveInterval p)
    (p_LastHandshakeTime p) (p_ReceiveBytes p) (p_TransmitBytes p)
    (p_AllowedIPs p).
Definition set_p_PersistentKeepaliveInterval (p : Peer) (v : Z) : Peer :=
  mkPeer (p_PublicKey p) (p_PresharedKey p) (p_Endpoint p) v
    (p_LastHandshakeTime p) (p_ReceiveBytes p) (p_TransmitBytes p)
    (p_AllowedIPs p).
Definition set_p_LastHandshakeTime (p : Peer) (t : Time) : Peer :=
  mkPeer (p_PublicKey p) (p_PresharedKey p) (p_Endpoint p)
    (p_PersistentKeepaliveInterval p) t (p_ReceiveBytes p) (p_TransmitBytes p)
    (p_AllowedIPs p).
Definition set_p_ReceiveBytes (p : Peer) (v : Z) : Peer :=
  mkPeer (p_PublicKey p) (p_PresharedKey p) (p_Endpoint p)
    (p_PersistentKeepaliveInterval p) (p_LastHandshakeTime p) v
    (p_TransmitBytes p) (p_AllowedIPs p).
Definition set_p_TransmitBytes (p : Peer) (v : Z) : Peer :=
  mkPeer (p_PublicKey p) (p_PresharedKey p) (p_Endpoint p)
    (p_PersistentKeepaliveInterval p) (p_LastHandshakeTime p)
    (p_ReceiveBytes p) v (p_AllowedIPs p).
Definition set_p_AllowedIPs (p : Peer) (ipns : list IPNet) : Peer :=
  mkPeer (p_PublicKey p) (p_PresharedKey p) (p_Endpoint p)
    (p_PersistentKeepaliveInterval p) (p_LastHandshakeTime p)
    (p_ReceiveBytes p) (p_TransmitBytes p) ipns.

Definition set_d_Name (d : Device) (s : string) : Device :=
  mkDevice s (d_PrivateKey d) (d_PublicKey d) (d_ListenPort d)
    (d_FirewallMark d) (d_Peers d).
Definition set_d_PrivateKey (d : Device) (k : Key) : Device :=
  mkDevice (d_Name d) k (d_PublicKey d) (d_ListenPort d)
    (d_FirewallMark d) (d_Peers d).
Definition set_d_PublicKey (d : Device) (k : Key) : Device :=
  mkDevice (d_Name d) (d_PrivateKey d) k (d_ListenPort d)
    (d_FirewallMark d) (d_Peers d).
Definition set_d_ListenPort (d : Device) (v : Z) : Device :=
  mkDevice (d_Name d) (d_PrivateKey d) (d_PublicKey d) v
    (d_FirewallMark d) (d_Peers d).
Definition set_d_FirewallMark (d : Device) (v : Z) : Device :=
  mkDevice (d_Name d) (d_PrivateKey d) (d_PublicKey d) (d_ListenPort d)
    v (d_Peers d).
Definition set_d_Peers (d : Device) (ps : list Peer) : Device :=
  mkDevice (d_Name d) (d_PrivateKey d) (d_PublicKey d) (d_ListenPort d)
    (d_FirewallMark d) ps.

(** Modelled from the spec: [wgtypes.Config], the sparse write model,
    whose declaration is not part of the sources at hand.  Every field is
    present or absent. *)
Record Config := mkConfig {
  cfg_PrivateKey : option Key;
  cfg_ListenPort : option Z;
  cfg_FirewallMark : option Z
}.

(** [genetlink.Message] *)
Record genl_Header := mkHeader {
  h_Command : Z;
  h_Version : Z
}.

Record Message := mkMessage {
  m_Header : genl_Header;
  m_Data : list byte
}.

(** ** Primitive decoders *)

(** [parseKey]: the closure stores the key through its pointer; the
    embedding returns the value to store. *)
Definition parseKey (b : list byte) : result Key :=
  k ← NewKey b; Ok k.

(** [parseAddr] *)
Definition parseAddr (b : list byte) : result (list byte) :=
  if decide (length b = IPv4len ∨ length b = IPv6len) then Ok b
  else Err (errIPSize (length b)).

(** [unix.RawSockaddrInet4] and [unix.RawSockaddrInet6]. *)
Record RawSockaddrInet4 := mkRawSockaddrInet4 {
  sa4_Family : Z;
  sa4_Port : Z;
  sa4_Addr : list byte;
  sa4_Zero : list byte
}.

Record RawSockaddrInet6 := mkRawSockaddrInet6 {
  sa6_Family : Z;
  sa6_Port : Z;
  sa6_Flowinfo : Z;
  sa6_Addr : list byte;
  sa6_Scope_id : Z
}.

(** [unix.Timespec] on a 64-bit platform. *)
Record Timespec := mkTimespec {
  ts_Sec : Z;
  ts_Nsec : Z
}.

Section Codec.

Variable native : ByteOrder.

(** The [unsafe.Pointer] cast of the bytes of [b] to a
    [unix.RawSockaddrInet4]: the fields are read where the struct lays
    them out, integers in host order. *)
Definition castRawSockaddrInet4 (b : list byte) : RawSockaddrInet4 :=
  mkRawSockaddrInet4
    (ByteOrder_Uint native (take 2 b))
    (ByteOrder_Uint native (take 2 (drop 2 b)))
    (take 4 (drop 4 b))
    (take 8 (drop 8 b)).

Definition castRawSockaddrInet6 (b : list byte) : RawSockaddrInet6 :=
  mkRawSockaddrInet6
    (ByteOrder_Uint native (take 2 b))
    (ByteOrder_Uint native (take 2 (drop 2 b)))
    (ByteOrder_Uint native (take 4 (drop 4 b)))
    (take 16 (drop 8 b))
    (ByteOrder_Uint native (take 4 (drop 24 b))).

Definition castTimespec (b : list byte) : Timespec :=
  mkTimespec
    (int64_of_bits (ByteOrder_Uint native (take 8 b)))
    (int64_of_bits (ByteOrder_Uint native (take 8 (drop 8 b)))).

(** [parseSockaddr] *)
Definition parseSockaddr (b : list byte) : result UDPAddr :=
  if decide (length b = SizeofSockaddrInet4) then
    let sa := castRawSockaddrInet4 b in
    Ok (mkUDPAddr (To4 (sa4_Addr sa)) (sa4_Port sa))
  else if decide (length b = SizeofSockaddrInet6) then
    let sa := castRawSockaddrInet6 b in
    Ok (mkUDPAddr (sa6_Addr sa) (sa6_Port sa))
  else Err (errSockaddrSize (length b)).

(** [parseTimespec] *)
Definition parseTimespec (b : list byte) : result Time :=
  if decide (length b ≠ sizeofTimespec)
  then Err (errTimespecSize (length b))
  else
    let ts := castTimespec b in
    Ok (time_Unix (ts_Sec ts) (ts_Nsec ts)).

(** ** Allowed-IP list decoder *)

(** The locals [ipn], [mask] and [family] of one array element. *)
Record allowedipState := mkAllowedipState {
  st_ipn : IPNet;
  st_mask : Z;
  st_family : Z
}.

(** The [switch ad.Type()] of [parseAllowedIPs]. *)
Definition parseAllowedIP_attr (st : allowedipState) (ad : Attribute)
  : result allowedipState :=
  let t := a_Type ad in
  if decide (t = AllowedipAIpaddr) then
    ip ← ad_Do parseAddr ad;
    Ok (mkAllowedipState (mkIPNet ip (ipn_Mask (st_ipn st)))
          (st_mask st) (st_family st))
  else if decide (t = AllowedipACidrMask) then
    v ← ad_Uint8 native ad;
    Ok (mkAllowedipState (st_ipn st) v (st_family st))
  else if decide (t = AllowedipAFamily) then
    v ← ad_Uint16 native ad;
    Ok (mkAllowedipState (st_ipn st) (st_mask st) v)
  else Ok st.

(** One element of the array: its nested attributes, then the mask
    from the address family. *)
Definition parseAllowedIP (a : Attribute) : result IPNet :=
  ad ← NewAttributeDecoder native (a_Data a);
  st ← foldM parseAllowedIP_attr
       (mkAllowedipState (mkIPNet [] []) 0 0) ad;
  let ipn := st_ipn st in
  if decide (st_family st = AF_INET) then
    Ok (mkIPNet (ipn_IP ipn) (CIDRMask (st_mask st) 32))
  else if decide (st_family st = AF_INET6) then
    Ok (mkIPNet (ipn_IP ipn) (CIDRMask (st_mask st) 128))
  else Ok ipn.

(** [parseAllowedIPs] *)
Definition parseAllowedIPs (b : list byte) : result (list IPNet) :=
  attrs ← UnmarshalAttributes native b;
  foldM (λ ipns a, ipn ← parseAllowedIP a; Ok (ipns ++ [ipn])) [] attrs.

(** ** Peer list decoder *)

Definition Second : Z := 1000000000.

(** The [switch ad.Type()] of [parsePeers]. *)
Definition parsePeer_attr (p : Peer) (ad : Attribute) : result Peer :=
  let t := a_Type ad in
  if decide (t = PeerAPublicKey) then
    k ← ad_Do parseKey ad; Ok (set_p_PublicKey p k)
  else if decide (t = PeerAPresharedKey) then
    k ← ad_Do parseKey ad; Ok (set_p_PresharedKey p k)
  else if decide (t = PeerAEndpoint) then
    e ← ad_Do parseSockaddr ad; Ok (set_p_Endpoint p (Some e))
  else if decide (t = PeerAPersistentKeepaliveInterval) then
    v ← ad_Uint16 native ad;
    Ok (set_p_PersistentKeepaliveInterval p (v * Second))
  else if decide (t = PeerALastHandshakeTime) then
    ts ← ad_Do parseTimespec ad; Ok (set_p_LastHandshakeTime p ts)
  else if decide (t = PeerARxBytes) then
    v ← ad_Uint64 native ad; Ok (set_p_ReceiveBytes p (int_of_uint64 v))
  else if decide (t = PeerATxBytes) then
    v ← ad_Uint64 native ad; Ok (set_p_TransmitBytes p (int_of_uint64 v))
  else if decide (t = PeerAAllowedips) then
    ipns ← ad_Do parseAllowedIPs ad; Ok (set_p_AllowedIPs p ipns)
  else Ok p.

Definition parsePeer (a : Attribute) : result Peer :=
  ad ← NewAttributeDecoder native (a_Data a);
  foldM parsePeer_attr zeroPeer ad.

(** [parsePeers] *)
Definition parsePeers (b : list byte) : result (list Peer) :=
  attrs ← UnmarshalAttributes native b;
  foldM (λ ps a, p ← parsePeer a; Ok (ps ++ [p])) [] attrs.

(** ** Device decoder *)

(** The [switch ad.Type()] of [parseDeviceLoop]. *)
Definition parseDevice_attr (d : Device) (ad : Attribute) : result Device :=
  let t := a_Type ad in
  if decide (t = DeviceAIfindex) then Ok d
  else if decide (t = DeviceAIfname) then Ok (set_d_Name d (ad_String ad))
  else if decide (t = DeviceAPrivateKey) then
    k ← ad_Do parseKey ad; Ok (set_d_PrivateKey d k)
  else if decide (t = DeviceAPublicKey) then
    k ← ad_Do parseKey ad; Ok (set_d_PublicKey d k)
  else if decide (t = DeviceAListenPort) then
    v ← ad_Uint16 native ad; Ok (set_d_ListenPort d v)
  else if decide (t = DeviceAFwmark) then
    v ← ad_Uint32 native ad; Ok (set_d_FirewallMark d v)
  else if decide (t = DeviceAPeers) then
    peers ← ad_Do parsePeers ad; Ok (set_d_Peers d peers)
  else Ok d.

(** [parseDeviceLoop] *)
Definition parseDeviceLoop (m : Message) : result Device :=
  ad ← NewAttributeDecoder native (m_Data m);
  foldM parseDevice_attr zeroDevice ad.

End Codec.

(** ** Multi-message merge *)

(** The locals of [mergeDevices] that live across its loops: the peers of
    [target], updated in place, the new [peers] and the [known] keys. *)
Record mergeState := mkMergeState {
  ms_target : list Peer;
  ms_peers : list Peer;
  ms_known : gset Key
}.

(** The body of the inner loop [for k := range d.Peers], for the target
    peer whose public key is [key_j]; [ipns] collects the allowed IPs of
    the matching peers. *)
Definition merge_peer (key_j : Key)
    (st : list IPNet * list Peer * gset Key) (dp : Peer)
  : list IPNet * list Peer * gset Key :=
  let '(ipns, peers, known) := st in
  if decide (key_j = p_PublicKey dp) then
    (ipns ++ p_AllowedIPs dp, peers, known)
  else if decide (p_PublicKey dp ∈ known) then st
  else (ipns, peers ++ [dp], {[p_PublicKey dp]} ∪ known).

(** The body of the outer loop [for j := range target.Peers]. *)
Definition merge_at (dpeers : list Peer) (st : mergeState) (j : nat)
  : mergeState :=
  match ms_target st !! j with
  | None => st
  | Some tp =>
    let '(ipns, peers, known) :=
      foldl (merge_peer (p_PublicKey tp))
        ([], ms_peers st, ms_known st) dpeers in
    mkMergeState
      (<[j := set_p_AllowedIPs tp (p_AllowedIPs tp ++ ipns)]> (ms_target st))
      peers known
  end.

(** [mergeDevices].  [target] and [d] are distinct objects at its call
    site; the function returns the new contents of [target] and, as in
    the source, never an error. *)
Definition mergeDevices (target d : Device) : result Device :=
  let known : gset Key := list_to_set (p_PublicKey <$> d_Peers target) in
  let st :=
    foldl (merge_at (d_Peers d))
      (mkMergeState (d_Peers target) [] known)
      (seq 0 (length (d_Peers target))) in
  Ok (set_d_Peers target (ms_target st ++ ms_peers st)).

(** ** [parseDevice] *)

Section ParseDevice.

Variable native : ByteOrder.

(** The loop [for i, m := range msgs] with its local [first]. *)
Fixpoint parseDevice_loop (i : nat) (first : Device) (msgs : list Message)
  : result Device :=
  match msgs with
  | [] => Ok first
  | m :: rest =>
    d ← parseDeviceLoop native m;
    if decide (i = 0%nat) then parseDevice_loop (S i) d rest
    else
      first' ← mergeDevices first d;
      parseDevice_loop (S i) first' rest
  end.

Definition parseDevice (msgs : list Message) : result Device :=
  parseDevice_loop 0 zeroDevice msgs.

End ParseDevice.

(** ** Request encoder *)

(** [configAttrs] *)
Definition configAttrs (name : string) (cfg : Config)
  : result (list Attribute) :=
  let attrs := [mkAttribute DeviceAIfname (nlenc_Bytes name)] in
  let attrs :=
    match cfg_PrivateKey cfg with
    | Some k => attrs ++ [mkAttribute DeviceAPrivateKey (vec_to_list k)]
    | None => attrs
    end in
  Ok attrs.

(** ** The client *)

(** [netlink.HeaderFlags] *)
Definition HeaderFlagsRequest : Z := 1.
Definition HeaderFlagsAcknowledge : Z := 4.
Definition HeaderFlagsDump : Z := 768.

(** One request handed to the generic netlink connection. *)
Record Request := mkRequest {
  req_msg : Message;
  req_family : Z;
  req_flags : Z
}.

(** [client]: the family identifier and, standing for the connection,
    the requests executed on it so far. *)
Record client := mkClient {
  c_family : Z;
  c_conn : list Request
}.

Section Client.

Variable native : ByteOrder.

(** The kernel end of the connection: its answer to a request, given
    the requests that came before. *)
Variable kernel : list Request → Request → result (list Message).

(** [genetlink.Conn.Execute] *)
Definition Conn_Execute (m : Message) (family flags : Z) (c : client)
  : result (list Message) * client :=
  let req := mkRequest m family flags in
  (kernel (c_conn c) req, mkClient (c_family c) (c_conn c ++ [req])).

(** [execute] *)
Definition execute (command : Z) (flags : Z) (attrs : list Attribute)
    (c : client) : result (list Message) * client :=
  match MarshalAttributes native attrs with
  | Err e => (Err e, c)
  | Ok b =>
    let msg := mkMessage (mkHeader command GenlVersion) b in
    match Conn_Execute msg (c_family c) flags c with
    | (Err e, c') =>
      if decide (e = Errno ENODEV ∨ e = Errno ENOTSUP)
      then (Err ErrNotExist, c')
      else (Err e, c')
    | (Ok msgs, c') => (Ok msgs, c')
    end
  end.

(** [getDevice] *)
Definition getDevice (index : Z) (name : string) (c : client)
  : result Device * client :=
  let attr :=
    if decide (index ≠ 0) then
      Some (mkAttribute DeviceAIfindex
              (nlenc_Uint32Bytes native (uint32 index)))
    else if decide (name ≠ "") then
      Some (mkAttribute DeviceAIfname (nlenc_Bytes name))
    else None in
  match attr with
  | None => (Err ErrNotExist, c)
  | Some attr =>
    let flags := Z.lor HeaderFlagsRequest HeaderFlagsDump in
    match execute CmdGetDevice flags [attr] c with
    | (Err e, c') => (Err e, c')
    | (Ok msgs, c') => (parseDevice native msgs, c')
    end
  end.

(** [DeviceByIndex], [DeviceByName] *)
Definition DeviceByIndex (index : Z) := getDevice index "".
Definition DeviceByName (name : string) := getDevice 0 name.

(** [ConfigureDevice] *)
Definition ConfigureDevice (name : string) (cfg : Config) (c : client)
  : result unit * client :=
  match configAttrs name cfg with
  | Err e => (Err e, c)
  | Ok attrs =>
    let flags := Z.lor HeaderFlagsRequest HeaderFlagsAcknowledge in
    match execute CmdSetDevice flags attrs c with
    | (Err e, c') => (Err e, c')
    | (Ok _, c') => (Ok (), c')
    end
  end.

End Client.

(** ** Vocabulary of the properties *)

Definition peerKeys (ps : list Peer) : list Key := p_PublicKey <$> ps.

(** The allowed IPs that the peers of [ps] with public key [k] carry, in
    the order of [ps]. *)
Definition allowedIPsOf (k : Key) (ps : list Peer) : list IPNet :=
  p ← ps; if decide (k = p_PublicKey p) then p_AllowedIPs p else [].

(** The same across the devices decoded from a sequence of messages. *)
Definition allowedIPsAcross (k : Key) (ds : list Device) : list IPNet :=
  d ← ds; allowedIPsOf k (d_Peers d).

(** A target peer after it took the allowed IPs of its namesakes. *)
Definition absorb (dps : list Peer) (tp : Peer) : Peer :=
  set_p_AllowedIPs tp (p_AllowedIPs tp ++ allowedIPsOf (p_PublicKey tp) dps).

(** The peers of [dps] whose key is not in [known], each key once, at
    its first occurrence. *)
Fixpoint newPeers (known : gset Key) (dps : list Peer) : list Peer :=
  match dps with
  | [] => []
  | p :: r =>
    if decide (p_PublicKey p ∈ known) then newPeers known r
    else p :: newPeers ({[p_PublicKey p]} ∪ known) r
  end.

(** [newPeers] with the known keys held in a list, which computes. *)
Fixpoint newPeersL (known : list Key) (dps : list Peer) : list Peer :=
  match dps with
  | [] => []
  | p :: r =>
    if decide (p_PublicKey p ∈ known) then newPeersL known r
    else p :: newPeersL (p_PublicKey p :: known) r
  end.

(** Type codes no decoder of the level knows. *)
Definition unknownDeviceType (t : Z) : Prop :=
  t ∉ [DeviceAIfindex; DeviceAIfname; DeviceAPrivateKey; DeviceAPublicKey;
       DeviceAListenPort; DeviceAFwmark; DeviceAPeers].

Definition unknownPeerType (t : Z) : Prop :=
  t ∉ [PeerAPublicKey; PeerAPresharedKey; PeerAEndpoint;
       PeerAPersistentKeepaliveInterval; PeerALastHandshakeTime;
       PeerARxBytes; PeerATxBytes; PeerAAllowedips].

Definition unknownAllowedipType (t : Z) : Prop :=
  t ∉ [AllowedipAIpaddr; AllowedipACidrMask; AllowedipAFamily].


(** The state of [parseDevice]'s loop that the merge maintains: [first]
    has no two peers with one key, every peer of [first] holds the
    allowed IPs its key has in the devices [seen] so far, in their order,
    and every key of those devices is a key of [first]. *)
Definition merged (first : Device) (seen : list Device) : Prop :=
  NoDup (peerKeys (d_Peers first))
  ∧ (∀ p, p ∈ d_Peers first →
       p_AllowedIPs p = allowedIPsAcross (p_PublicKey p) seen)
  ∧ (∀ d q, d ∈ seen → q ∈ d_Peers d →
       p_PublicKey q ∈ peerKeys (d_Peers first)).

(** The postcondition stated for [parseDevice]: whenever it succeeds on
    [msgs], whose messages decode to [ds], the peers of the result have
    pairwise distinct public keys and each holds the concatenation of the
    allowed IPs its key has across all the messages. *)
Definition parseDevice_postcondition (native : ByteOrder)
    (msgs : list Message) : Prop :=
  ∀ dev ds,
    parseDevice native msgs = Ok dev →
    traverse (parseDeviceLoop native) msgs = Ok ds →
    NoDup (peerKeys (d_Peers dev))
    ∧ ∀ p, p ∈ d_Peers dev →
        p_AllowedIPs p = allowedIPsAcross (p_PublicKey p) ds.

(** ** Sample inputs *)

(** Byte literals. *)
Definition bytes (l : list Z) : list byte := byte_of_Z <$> l.

(** A [sockaddr_in] for 192.168.1.1, UDP port 51820: family [AF_INET] in
    host order, the port in network byte order (0xCA 0x6C), the address
    and eight bytes of padding. *)
Definition sockaddr_in_sample : list byte :=
  bytes [2; 0;  202; 108;  192; 168; 1; 1;  0; 0; 0; 0; 0; 0; 0; 0].

(** A device message, in little-endian framing, whose peer list holds two
    empty peer records: neither carries a public key. *)
Definition duplicate_key_message : Message :=
  mkMessage (mkHeader CmdGetDevice GenlVersion)
    (bytes [12; 0; 8; 0;  4; 0; 0; 0;  4; 0; 0; 0]).

(** Device messages with a record of type 99 between the interface name
    and the listen port, and without it. *)
Definition message_with_unknown : Message :=
  mkMessage (mkHeader CmdGetDevice GenlVersion)
    (bytes [8; 0; 2; 0;  119; 103; 48; 0;
            9; 0; 99; 0;  1; 2; 3; 4; 5; 0; 0; 0;
            6; 0; 6; 0;  108; 202; 0; 0]).

Definition message_without_unknown : Message :=
  mkMessage (mkHeader CmdGetDevice GenlVersion)
    (bytes [8; 0; 2; 0;  119; 103; 48; 0;
            6; 0; 6; 0;  108; 202; 0; 0]).

(** A peer list of one peer: keepalive 25, a record of type 77, 4096
    bytes received; and the same without the record of type 77. *)
Definition peers_with_unknown : list byte :=
  bytes [32; 0; 0; 0;
         6; 0; 5; 0;  25; 0; 0; 0;
         5; 0; 77; 0;  1; 0; 0; 0;
         12; 0; 7; 0;  0; 16; 0; 0; 0; 0; 0; 0].

Definition peers_without_unknown : list byte :=
  bytes [24; 0; 0; 0;
         6; 0; 5; 0;  25; 0; 0; 0;
         12; 0; 7; 0;  0; 16; 0; 0; 0; 0; 0; 0].

(** An allowed-IP list of one network, 10.0.0.0/8, with a record of type
    9 after the family; and the same without it. *)
Definition allowedips_with_unknown : list byte :=
  bytes [36; 0; 0; 0;
         6; 0; 1; 0;  2; 0; 0; 0;
         8; 0; 9; 0;  1; 2; 3; 4;
         8; 0; 2; 0;  10; 0; 0; 0;
         5; 0; 3; 0;  8; 0; 0; 0].

Definition allowedips_without_unknown : list byte :=
  bytes [28; 0; 0; 0;
         6; 0; 1; 0;  2; 0; 0; 0;
         8; 0; 2; 0;  10; 0; 0; 0;
         5; 0; 3; 0;  8; 0; 0; 0].

(** A message whose only record declares 8 bytes where 6 are left. *)
Definition truncated_message : Message :=
  mkMessage (mkHeader CmdGetDevice GenlVersion)
    (bytes [8; 0; 2; 0;  119; 103]).

(** Three distinct keys and the networks of the merge scenario. *)
Definition keyA : Key := vreplicate KeyLen Byte.x0a.
Definition keyB : Key := vreplicate KeyLen Byte.x0b.
Definition keyC : Key := vreplicate KeyLen Byte.x0c.

Definition net_10_0_0_0_8 : IPNet :=
  mkIPNet (bytes [10; 0; 0; 0]) (bytes [255; 0; 0; 0]).
Definition net_10_0_0_1_32 : IPNet :=
  mkIPNet (bytes [10; 0; 0; 1]) (bytes [255; 255; 255; 255]).
Definition net_192_168_0_0_16 : IPNet :=
  mkIPNet (bytes [192; 168; 0; 0]) (bytes [255; 255; 0; 0]).

Definition peer_of (k : Key) (ipns : list IPNet) : Peer :=
  set_p_AllowedIPs (set_p_PublicKey zeroPeer k) ipns.

Definition device_of (name : string) (peers : list Peer) : Device :=
  set_d_Peers (set_d_Name zeroDevice name) peers.

(** Little-endian framing of sample messages. *)
Definition wire (attrs : list Attribute) : list byte :=
  match MarshalAttributes LittleEndian attrs with
  | Ok b => b
  | Err _ => []
  end.

Definition nested (t : Z) (attrs : list Attribute) : Attribute :=
  mkAttribute t (wire attrs).

Definition allowedip_record (family : Z) (ip : list Z) (cidr : Z)
  : Attribute :=
  nested 0 [mkAttribute AllowedipAFamily (le_bytes 2 family);
            mkAttribute AllowedipAIpaddr (bytes ip);
            mkAttribute AllowedipACidrMask (bytes [cidr])].

Definition peer_record (k : Key) (ips : list Attribute) : Attribute :=
  nested 0 [mkAttribute PeerAPublicKey (vec_to_list k);
            nested PeerAAllowedips ips].

Definition device_message (name : string) (peers : list Attribute)
  : Message :=
  mkMessage (mkHeader CmdGetDevice GenlVersion)
    (wire [mkAttribute DeviceAIfname (nlenc_Bytes name);
           nested DeviceAPeers peers]).

(** A dump in two messages: peers A (10.0.0.0/8) and B, then the
    continuation with A (10.0.0.1/32) and the new peer C
    (192.168.0.0/16). *)
Definition dump_first : Message :=
  device_message "wg0"
    [peer_record keyA [allowedip_record AF_INET [10; 0; 0; 0] 8];
     peer_record keyB []].

Definition dump_continuation : Message :=
  device_message "wg0"
    [peer_record keyA [allowedip_record AF_INET [10; 0; 0; 1] 32];
     peer_record keyC [allowedip_record AF_INET [192; 168; 0; 0] 16]].

Definition dump_first_device : Device :=
  device_of "wg0" [peer_of keyA [net_10_0_0_0_8]; peer_of keyB []].

Definition dump_continuation_device : Device :=
  device_of "wg0"
    [peer_of keyA [net_10_0_0_1_32]; peer_of keyC [net_192_168_0_0_16]].

(** Skipping of unknown type codes: the hypotheses [H] of the form
    [t ∉ [c1; ...; cn]] are split into [t ≠ ci]. *)
Ltac split_unknown H :=
  repeat (apply not_elem_of_cons in H; destruct H as [? H]).

(** Equations between sets of keys built from singletons and unions. *)
Ltac key_sets :=
  cbn [peerKeys fmap list_fmap list_to_set];
  apply set_eq; intros ?;
  rewrite ?elem_of_union, ?elem_of_singleton, ?elem_of_empty;
  intuition (subst; auto).

(** ** The client: listing devices *)

(** [net.Interface]: the fields [Devices] reads. *)
Record Interface := mkInterface {
  ifi_Index : Z;
  ifi_Name : string
}.

Section Devices.

Variable native : ByteOrder.
Variable kernel : list Request → Request → result (list Message).

(** What [c.interfaces()] returns: by default the interfaces of package
    [net]. *)
Variable interfaces : result (list Interface).

(** The loop [for _, ifi := range ifis] of [Devices] with its local
    [ds]. *)
Fixpoint Devices_loop (ifis : list Interface) (ds : list Device)
    (c : client) : result (list Device) * client :=
  match ifis with
  | [] => (Ok ds, c)
  | ifi :: rest =>
    match getDevice native kernel (ifi_Index ifi) (ifi_Name ifi) c with
    | (Err err, c') =>
      if os_IsNotExist err then Devices_loop rest ds c'
      else (Err err, c')
    | (Ok d, c') => Devices_loop rest (ds ++ [d]) c'
    end
  end.

(** [Devices] *)
Definition Devices (c : client) : result (list Device) * client :=
  match interfaces with
  | Err err => (Err err, c)
  | Ok ifis => Devices_loop ifis [] c
  end.

End Devices.

(** ** Well-formed decoded values *)

(** What every decoded peer satisfies: a keepalive of whole seconds within
    16 bits, counters within [int], handshake nanoseconds within a
    second, an endpoint port within 16 bits. *)
Definition peer_in_range (p : Peer) : Prop :=
  (∃ s, 0 ≤ s < 65536 ∧ p_PersistentKeepaliveInterval p = s * 1000000000)
  ∧ - 2 ^ 63 ≤ p_ReceiveBytes p < 2 ^ 63
  ∧ - 2 ^ 63 ≤ p_TransmitBytes p < 2 ^ 63
  ∧ 0 ≤ t_nsec (p_LastHandshakeTime p) < 1000000000
  ∧ (∀ e, p_Endpoint p = Some e → 0 ≤ udp_Port e < 65536).

Definition device_in_range (d : Device) : Prop :=
  0 ≤ d_ListenPort d < 65536
  ∧ 0 ≤ d_FirewallMark d < 2 ^ 32
  ∧ Forall peer_in_range (d_Peers d).

(** The two's complement bit pattern of an [int64]. *)
Definition int64_bits (z : Z) : Z := z mod 2 ^ 64.

(** Inversion of a successful step [x ← m; k]. *)
Ltac inv_bind H :=
  repeat match type of H with
  | mbind _ ?m = Ok _ =>
    let E := fresh "E" in
    destruct m eqn:E;
      [cbv beta iota delta [mbind result_bind] in H|discriminate H]
  end.

(** No record of [attrs] has the type code [t]. *)
Definition absent (t : Z) (attrs : list Attribute) : Prop :=
  Forall (λ a, a_Type a ≠ t) attrs.

(** A peer record with a keepalive and a receive counter and nothing
    else: the element of [peers_without_unknown]. *)
Definition peer_record_sample : Attribute :=
  mkAttribute 0 (drop 4 peers_without_unknown).

(** The case analysis of a decoder's [switch] on a successful step [H]. *)
Ltac switch_cases H :=
  repeat case_decide; intros H; inv_bind H.

(** An allowed-IP list whose one record has an address of 3 bytes, a peer
    list whose one peer carries that allowed-IP list, and a device
    message that carries that peer list. *)
Definition allowedips_bad_address : list byte :=
  bytes [12; 0; 0; 0;
         7; 0; 2; 0;  10; 0; 0; 0].

Definition peers_bad_address : list byte :=
  bytes [20; 0; 0; 0;
         16; 0; 9; 0;
         12; 0; 0; 0;
         7; 0; 2; 0;  10; 0; 0; 0].

Definition message_bad_address : Message :=
  mkMessage (mkHeader CmdGetDevice GenlVersion)
    (bytes [24; 0; 8; 0;
            20; 0; 0; 0;
            16; 0; 9; 0;
            12; 0; 0; 0;
            7; 0; 2; 0;  10; 0; 0; 0]).

(** [execute]'s view of a transport error: the two errnos of a missing or
    foreign device become [os.ErrNotExist]. *)
Definition notExistOr (e : error) : error :=
  if decide (e = Errno ENODEV ∨ e = Errno ENOTSUP) then ErrNotExist else e.

(** What [getDevice] makes of the kernel's answer. *)
Definition deviceOfAnswer (native : ByteOrder)
    (answer : result (list Message)) : result Device :=
  match answer with
  | Ok msgs => parseDevice native msgs
  | Err e => Err (notExistOr e)
  end.

(** A kernel without WireGuard devices: every request fails with
    [ENODEV]. *)
Definition kernel_no_device (log : list Request) (req : Request)
  : result (list Message) := Err (Errno ENODEV).

(** A kernel that answers every request with the sample dump. *)
Definition kernel_sample_dump (log : list Request) (req : Request)
  : result (list Message) := Ok [dump_first; dump_continuation].

Definition client0 : client := mkClient 24 [].

(** A request of [getDevice] on a connection of the given family: a dump
    request of the get-device command. *)
Definition get_request (family : Z) (req : Request) : Prop :=
  req_family req = family
  ∧ req_flags req = Z.lor HeaderFlagsRequest HeaderFlagsDump
  ∧ m_Header (req_msg req) = mkHeader CmdGetDevice GenlVersion.

(** A device that is the decode of an answer of the kernel to a
    get-device request. *)
Definition decoded_answer (native : ByteOrder)
    (kernel : list Request → Request → result (list Message))
    (family : Z) (d : Device) : Prop :=
  ∃ log req msgs,
    get_request family req
    ∧ kernel log req = Ok msgs
    ∧ parseDevice native msgs = Ok d.

(** An interface that [getDevice] can name in a request: its index is
    not zero, or its name is not empty and fits one attribute. *)
Definition addressable (ifi : Interface) : Prop :=
  ifi_Index ifi ≠ 0
  ∨ (ifi_Name ifi ≠ ""
     ∧ Z.of_nat (length (nlenc_Bytes (ifi_Name ifi))) ≤ 65531).

#[global] Instance addressable_dec (ifi : Interface)
  : Decision (addressable ifi).
Proof. unfold addressable. apply _. Defined.

(** The request that [getDevice] executes for the interface [ifi]: a
    get-device dump request whose only attribute is the index of [ifi],
    as 32 bits in host order, when that index is not zero, and the name
    of [ifi] followed by a NUL byte otherwise. *)
Definition request_for (native : ByteOrder) (family : Z) (ifi : Interface)
    (req : Request) : Prop :=
  get_request family req
  ∧ ((ifi_Index ifi ≠ 0
      ∧ ∃ data,
          UnmarshalAttributes native (m_Data (req_msg req))
          = Ok [mkAttribute DeviceAIfindex data]
          ∧ length data = 4%nat
          ∧ ByteOrder_Uint native data = ifi_Index ifi mod 2 ^ 32)
     ∨ (ifi_Index ifi = 0
        ∧ UnmarshalAttributes native (m_Data (req_msg req))
          = Ok [mkAttribute DeviceAIfname
                  (String.list_byte_of_string (ifi_Name ifi)
                     ++ [Byte.x00])])).

(** A kernel that answers every request with the first message of the
    sample dump. *)
Definition kernel_first_message (log : list Request) (req : Request)
  : result (list Message) := Ok [dump_first].

(** A loopback interface and a tunnel. *)
Definition interfaces_sample : list Interface :=
  [mkInterface 1 "lo"; mkInterface 3 "wg0"].

(** A device message with two peer lists, the first with peer A and the
    second, after the interface name, with peer B. *)
Definition message_two_peer_lists : Message :=
  mkMessage (mkHeader CmdGetDevice GenlVersion)
    (wire [nested DeviceAPeers [peer_record keyA []];
           mkAttribute DeviceAIfname (nlenc_Bytes "wg0");
           nested DeviceAPeers [peer_record keyB []]]).

(** * Properties *)

(** ** The error monad *)

Lemma bind_Ok {A B : Type} (a : A) (f : A → result B) : Ok a ≫= f = f a.
Proof. reflexivity. Qed.

Lemma Ok_inj {A : Type} (a b : A) : Ok a = Ok b → a = b.
Proof. by intros [= ->]. Qed.

Lemma traverse_cons_inv {A B : Type} (f : A → result B) (a : A)
    (l : list A) (bs : list B) :
  traverse f (a :: l) = Ok bs →
  ∃ b bs', f a = Ok b ∧ traverse f l = Ok bs' ∧ bs = b :: bs'.
Proof.
  simpl. destruct (f a) as [b|e]; [|done]. simpl.
  destruct (traverse f l) as [bs'|e]; [|done]. simpl.
  intros [= <-]. by exists b, bs'.
Qed.

Lemma foldM_app {A S : Type} (f : S → A → result S) (l1 l2 : list A) :
  ∀ s, foldM f s (l1 ++ l2) = s' ← foldM f s l1; foldM f s' l2.
Proof.
  induction l1 as [|a l1 IH]; intros s; [done|].
  simpl. destruct (f s a) as [s'|e]; [|done]. rewrite !bind_Ok. apply IH.
Qed.

(** A loop body that leaves the state alone on [u] does not see [u]. *)
Lemma foldM_skip {A S : Type} (f : S → A → result S) (l1 l2 : list A)
    (u : A) :
  (∀ s, f s u = Ok s) →
  ∀ s, foldM f s (l1 ++ u :: l2) = foldM f s (l1 ++ l2).
Proof.
  intros Hu s. rewrite !foldM_app.
  destruct (foldM f s l1) as [s'|e]; [|done].
  rewrite !bind_Ok. simpl. by rewrite Hu.
Qed.

Lemma foldM_replace {A S : Type} (f : S → A → result S) (l1 l2 : list A)
    (e e' : A) :
  (∀ s, f s e = f s e') →
  ∀ s, foldM f s (l1 ++ e :: l2) = foldM f s (l1 ++ e' :: l2).
Proof.
  intros He s. rewrite !foldM_app.
  destruct (foldM f s l1) as [s'|err]; [|done].
  rewrite !bind_Ok. simpl. by rewrite He.
Qed.

(** ** Byte order and the attribute walker *)

Lemma byte_to_of_Z (z : Z) : byte_to_Z (byte_of_Z z) = z mod 256.
Proof.
  unfold byte_to_Z, byte_of_Z.
  assert (0 ≤ z mod 256 < 256) as Hr by (apply Z.mod_pos_bound; lia).
  destruct (Byte.of_N (Z.to_N (z mod 256))) as [b|] eqn:Hb; simpl.
  - apply Byte.to_of_N in Hb. rewrite Hb. apply Z2N.id. lia.
  - apply Byte.of_N_None_iff in Hb. lia.
Qed.

Lemma le_uint16_bytes (v : Z) : 0 ≤ v < 65536 → le_uint (le_bytes 2 v) = v.
Proof.
  intros Hv. simpl. rewrite !byte_to_of_Z.
  rewrite (Z.mod_small (v / 256))
    by (split; [apply Z.div_pos|apply Z.div_lt_upper_bound]; lia).
  pose proof (Z.div_mod v 256). lia.
Qed.

Lemma Uint16_PutUint16 (bo : ByteOrder) (v : Z) :
  0 ≤ v < 65536 → ByteOrder_Uint bo (ByteOrder_PutUint bo 2 v) = v.
Proof.
  intros Hv. destruct bo; unfold ByteOrder_Uint, ByteOrder_PutUint.
  - by apply le_uint16_bytes.
  - rewrite reverse_involutive. by apply le_uint16_bytes.
Qed.

Lemma length_le_bytes (n : nat) : ∀ v, length (le_bytes n v) = n.
Proof. induction n as [|n IH]; intros v; simpl; [done|]. by rewrite IH. Qed.

Lemma length_PutUint (bo : ByteOrder) (n : nat) (v : Z) :
  length (ByteOrder_PutUint bo n v) = n.
Proof.
  destruct bo; unfold ByteOrder_PutUint; [|rewrite length_reverse];
    apply length_le_bytes.
Qed.

Lemma nlaAlign_bounds (n : nat) : (n ≤ nlaAlign n < n + 4)%nat.
Proof.
  unfold nlaAlign.
  pose proof (Nat.div_mod_eq (n + 3) 4).
  pose proof (Nat.mod_upper_bound (n + 3) 4). lia.
Qed.

Lemma marshal_attr_length (native : ByteOrder) (a : Attribute)
    (rec : list byte) :
  marshal_attr native a = Ok rec →
  length rec = nlaAlign (nlaHeaderLen + length (a_Data a)).
Proof.
  unfold marshal_attr.
  destruct (65535 <? Z.of_nat (nlaHeaderLen + length (a_Data a))); [done|].
  intros <-%Ok_inj. rewrite !length_app, !length_PutUint, length_replicate.
  pose proof (nlaAlign_bounds (nlaHeaderLen + length (a_Data a))).
  unfold nlaHeaderLen in *. lia.
Qed.

(** One round of the walker over a framed record: the record comes back
    and the walk goes on behind its padding. *)
Lemma unmarshal_go_record (native : ByteOrder) (a : Attribute)
    (rec rest : list byte) (fuel : nat) :
  marshal_attr native a = Ok rec →
  0 ≤ a_Type a < 65536 →
  unmarshal_go native (S fuel) (rec ++ rest)
  = tl ← unmarshal_go native fuel rest; Ok (a :: tl).
Proof.
  intros Hrec Ht. pose proof (marshal_attr_length _ _ _ Hrec) as Hlen.
  revert Hrec. unfold marshal_attr.
  destruct (65535 <? Z.of_nat (nlaHeaderLen + length (a_Data a))) eqn:Hfit;
    [done|].
  apply Z.ltb_ge in Hfit. intros <-%Ok_inj.
  set (len := (nlaHeaderLen + length (a_Data a))%nat) in *.
  set (pad := replicate (nlaAlign len - len) Byte.x00) in *.
  pose proof (nlaAlign_bounds len) as Hal.
  remember (ByteOrder_PutUint native 2 (Z.of_nat len)) as L eqn:HL.
  remember (ByteOrder_PutUint native 2 (a_Type a)) as T eqn:HT.
  assert (length L = 2%nat) as HLl by (subst L; apply length_PutUint).
  assert (length T = 2%nat) as HTl by (subst T; apply length_PutUint).
  assert (length pad = (nlaAlign len - len)%nat) as Hpl
    by apply length_replicate.
  assert (∃ x r, (L ++ T ++ a_Data a ++ pad) ++ rest = x :: r)
    as (x & r & Hcons).
  { destruct L as [|x L]; [done|]. by eexists _, _. }
  rewrite Hcons. cbn [unmarshal_go]. rewrite <- Hcons.
  assert (length ((L ++ T ++ a_Data a ++ pad) ++ rest)
          = (nlaAlign len + length rest)%nat) as Htot.
  { rewrite !length_app. unfold len, nlaHeaderLen in *. lia. }
  rewrite Htot.
  assert (take 2 ((L ++ T ++ a_Data a ++ pad) ++ rest) = L) as ->.
  { rewrite <- !app_assoc. by rewrite take_app_length'. }
  assert (take 2 (drop 2 ((L ++ T ++ a_Data a ++ pad) ++ rest)) = T) as ->.
  { rewrite <- !app_assoc. rewrite drop_app_length' by done.
    by rewrite take_app_length'. }
  assert (drop nlaHeaderLen ((L ++ T ++ a_Data a ++ pad) ++ rest)
          = a_Data a ++ pad ++ rest) as ->.
  { rewrite <- !app_assoc. rewrite (app_assoc L T).
    rewrite drop_app_length'; [done|].
    rewrite length_app. unfold nlaHeaderLen. lia. }
  assert (ByteOrder_Uint native L = Z.of_nat len) as ->
    by (subst L; apply Uint16_PutUint16; unfold len, nlaHeaderLen in *; lia).
  assert (ByteOrder_Uint native T = a_Type a) as ->
    by (subst T; by apply Uint16_PutUint16).
  rewrite Nat2Z.id.
  assert (drop (nlaAlign len) ((L ++ T ++ a_Data a ++ pad) ++ rest) = rest)
    as ->.
  { rewrite drop_app_length'; [done|]. rewrite !length_app.
    unfold len, nlaHeaderLen in *. lia. }
  replace (nlaAlign len + length rest <? nlaHeaderLen)%nat with false
    by (symmetry; apply Nat.ltb_ge; unfold len, nlaHeaderLen in *; lia).
  replace (len <? nlaHeaderLen)%nat with false
    by (symmetry; apply Nat.ltb_ge; unfold len, nlaHeaderLen in *; lia).
  replace (nlaAlign len + length rest <? len)%nat with false
    by (symmetry; apply Nat.ltb_ge; lia).
  replace (len - nlaHeaderLen)%nat with (length (a_Data a))
    by (unfold len; lia).
  rewrite take_app_length. by destruct a.
Qed.

(** The walker reads back what the framing wrote; in particular the
    length of the buffer is fuel enough. *)
Lemma Unmarshal_Marshal (native : ByteOrder) (attrs : list Attribute)
    (b : list byte) :
  MarshalAttributes native attrs = Ok b →
  Forall (λ a, 0 ≤ a_Type a < 65536) attrs →
  UnmarshalAttributes native b = Ok attrs.
Proof.
  unfold UnmarshalAttributes, MarshalAttributes.
  assert (∀ fuel recs, traverse (marshal_attr native) attrs = Ok recs →
            Forall (λ a, 0 ≤ a_Type a < 65536) attrs →
            (length (concat recs) ≤ fuel)%nat →
            unmarshal_go native fuel (concat recs) = Ok attrs) as Hgo.
  { induction attrs as [|a attrs IH]; intros fuel recs Htr Hty Hfuel.
    - injection Htr as <-. by destruct fuel.
    - apply traverse_cons_inv in Htr as (rec & recs' & Hrec & Htr & ->).
      apply Forall_cons in Hty as [Ha Hty].
      pose proof (marshal_attr_length _ _ _ Hrec) as Hlen.
      pose proof (nlaAlign_bounds (nlaHeaderLen + length (a_Data a))) as Hal.
      cbn [concat] in *. rewrite length_app in Hfuel.
      destruct fuel as [|fuel]; [unfold nlaHeaderLen in *; lia|].
      rewrite (unmarshal_go_record native a rec) by done.
      rewrite (IH fuel recs') by (try done; unfold nlaHeaderLen in *; lia).
      done. }
  intros Hb Hty.
  destruct (traverse (marshal_attr native) attrs) as [recs|e] eqn:Htr;
    [|done].
  rewrite bind_Ok in Hb. injection Hb as <-. by apply Hgo.
Qed.

(** ** Primitive decoders *)

Lemma copy_array_exact (n : nat) (b : list byte) :
  length b = n → vec_to_list (copy_array n b) = b.
Proof.
  revert b. induction n as [|n IH]; intros [|x r] Hlen; simpl in *;
    try discriminate; [reflexivity|].
  f_equal. apply IH. lia.
Qed.

Lemma NewKey_ok (b : list byte) :
  length b = KeyLen → ∃ k : Key, NewKey b = Ok k ∧ vec_to_list k = b.
Proof.
  intros Hlen. unfold NewKey. rewrite decide_True by done.
  eexists. split; [reflexivity|]. by apply copy_array_exact.
Qed.

Lemma NewKey_err (b : list byte) :
  length b ≠ KeyLen → NewKey b = Err (errKeySize (length b)).
Proof. intros Hlen. unfold NewKey. by rewrite decide_False. Qed.

(** C6: key decoding fails with an invalid-length error on every input
    that is not exactly 32 bytes long, and succeeds on every 32-byte
    input, whatever its bytes, storing exactly those bytes. *)
Theorem parseKey_exactly_32_bytes (b : list byte) :
  (length b ≠ 32%nat →
     ∃ e, parseKey b = Err e ∧ error_kind e = InvalidLength)
  ∧ (length b = 32%nat →
       ∃ k : Key, parseKey b = Ok k ∧ vec_to_list k = b).
Proof.
  unfold parseKey. split; intros Hlen.
  - rewrite NewKey_err by done. by eexists.
  - destruct (NewKey_ok b Hlen) as (k & -> & Hk). by exists k.
Qed.

(** Inputs of 31 and 33 bytes fail, one of 32 bytes is stored as it is. *)
Lemma parseKey_exactly_32_bytes_witness :
  (∃ e, parseKey (replicate 31 Byte.xff) = Err e
        ∧ error_kind e = InvalidLength)
  ∧ (∃ e, parseKey (replicate 33 Byte.xff) = Err e
          ∧ error_kind e = InvalidLength)
  ∧ (∃ k : Key, parseKey (replicate 32 Byte.xff) = Ok k
                ∧ vec_to_list k = replicate 32 Byte.xff).
Proof.
  split; [|split].
  - apply (proj1 (parseKey_exactly_32_bytes (replicate 31 Byte.xff))).
    vm_compute. lia.
  - apply (proj1 (parseKey_exactly_32_bytes (replicate 33 Byte.xff))).
    vm_compute. lia.
  - apply (proj2 (parseKey_exactly_32_bytes (replicate 32 Byte.xff))).
    reflexivity.
Defined.

(** X2: the endpoint decoder rejects every payload that has neither the
    size of [sockaddr_in] nor that of [sockaddr_in6], with an
    invalid-length error that reports the size. *)
Lemma parseSockaddr_wrong_size (native : ByteOrder) (b : list byte) :
  length b ≠ SizeofSockaddrInet4 → length b ≠ SizeofSockaddrInet6 →
  parseSockaddr native b = Err (errSockaddrSize (length b))
  ∧ error_kind (errSockaddrSize (length b)) = InvalidLength.
Proof.
  intros H4 H6. unfold parseSockaddr.
  by rewrite !decide_False by done.
Qed.

(** A [sockaddr_in] cut to 15 bytes. *)
Lemma parseSockaddr_wrong_size_witness :
  parseSockaddr LittleEndian (take 15 sockaddr_in_sample)
    = Err (errSockaddrSize (length (take 15 sockaddr_in_sample)))
  ∧ error_kind (errSockaddrSize (length (take 15 sockaddr_in_sample)))
    = InvalidLength.
Proof.
  apply (parseSockaddr_wrong_size LittleEndian (take 15 sockaddr_in_sample));
    vm_compute; lia.
Defined.

(** On a payload of the [sockaddr_in] size the port is the host-order
    reading of bytes 2 and 3, the address bytes 4 to 7. *)
Lemma parseSockaddr_inet4 (native : ByteOrder) (b : list byte) :
  length b = SizeofSockaddrInet4 →
  parseSockaddr native b
  = Ok (mkUDPAddr (take 4 (drop 4 b))
          (ByteOrder_Uint native (take 2 (drop 2 b)))).
Proof.
  intros Hlen. unfold parseSockaddr. rewrite decide_True by done.
  cbn [castRawSockaddrInet4 sa4_Addr sa4_Port]. unfold To4.
  rewrite decide_True; [done|].
  rewrite length_take, length_drop, Hlen. reflexivity.
Qed.

(** C5: on a little-endian host the endpoint decoder reads the two port
    bytes of the sample [sockaddr_in] in host order: it returns the
    address 192.168.1.1 with port 27850, not 51820; a big-endian host
    gets 51820. *)
Theorem parseSockaddr_port_not_swapped :
  parseSockaddr LittleEndian sockaddr_in_sample
    = Ok (mkUDPAddr (bytes [192; 168; 1; 1]) 27850)
  ∧ parseSockaddr LittleEndian sockaddr_in_sample
    ≠ Ok (mkUDPAddr (bytes [192; 168; 1; 1]) 51820)
  ∧ parseSockaddr BigEndian sockaddr_in_sample
    = Ok (mkUDPAddr (bytes [192; 168; 1; 1]) 51820).
Proof.
  split; [|split].
  - by rewrite parseSockaddr_inet4.
  - rewrite parseSockaddr_inet4 by done. vm_compute. discriminate.
  - by rewrite parseSockaddr_inet4.
Qed.

(** ** The request encoder *)

(** C8: for every interface name and sparse Config the encoder returns,
    without error, a list whose first record is the interface-name
    attribute carrying the name; the list holds a private-key attribute,
    with the 32 bytes of the key, exactly when the Config has a private
    key; it holds nothing else. *)
Theorem configAttrs_ifname_and_optional_key (name : string) (cfg : Config) :
  ∃ attrs,
    configAttrs name cfg = Ok attrs
    ∧ attrs !! 0%nat = Some (mkAttribute DeviceAIfname (nlenc_Bytes name))
    ∧ ((∃ a, a ∈ attrs ∧ a_Type a = DeviceAPrivateKey)
       ↔ is_Some (cfg_PrivateKey cfg))
    ∧ (∀ a, a ∈ attrs → a_Type a = DeviceAPrivateKey →
         ∃ k : Key, cfg_PrivateKey cfg = Some k
                    ∧ a_Data a = vec_to_list k
                    ∧ length (a_Data a) = 32%nat)
    ∧ (∀ (i : nat) a, attrs !! i = Some a →
         i = 0%nat ∨ (i = 1%nat ∧ a_Type a = DeviceAPrivateKey)).
Proof.
  unfold configAttrs. destruct (cfg_PrivateKey cfg) as [k|] eqn:Hk.
  - eexists. split; [reflexivity|]. split; [reflexivity|]. split; [|split].
    + split; [by eauto|]. intros _.
      exists (mkAttribute DeviceAPrivateKey (vec_to_list k)).
      split; [|reflexivity]. simpl. set_solver.
    + intros a Ha Ht. exists k. split; [done|].
      assert (a = mkAttribute DeviceAPrivateKey (vec_to_list k)) as ->.
      { simpl in Ha. apply elem_of_cons in Ha as [->|Ha]; [discriminate|].
        by apply list_elem_of_singleton in Ha. }
      simpl. split; [done|]. apply length_vec_to_list.
    + intros [|[|i]] a Ha; simpl in Ha; [by left| |done].
      right. by simplify_eq.
  - eexists. split; [reflexivity|]. split; [reflexivity|]. split; [|split].
    + split; [|by intros [? ?]]. intros (a & Ha & Ht).
      apply list_elem_of_singleton in Ha as ->. discriminate.
    + intros a Ha Ht. apply list_elem_of_singleton in Ha as ->. discriminate.
    + intros [|i] a Ha; simpl in Ha; [by left|done].
Qed.

(** ** The client *)

(** C9: a query with index 0 and an empty name fails at once with
    [os.ErrNotExist], which [os.IsNotExist] accepts; the connection has
    executed no request: its log is what it was, whatever the kernel
    would have answered. *)
Theorem getDevice_without_identity (native : ByteOrder)
    (kernel : list Request → Request → result (list Message)) (c : client) :
  getDevice native kernel 0 "" c = (Err ErrNotExist, c)
  ∧ c_conn (snd (getDevice native kernel 0 "" c)) = c_conn c
  ∧ os_IsNotExist ErrNotExist = true
  ∧ error_kind ErrNotExist = NotFound.
Proof.
  assert (getDevice native kernel 0 "" c = (Err ErrNotExist, c)) as Hget.
  { unfold getDevice. rewrite decide_False by (intros H; by apply H).
    by rewrite decide_False by (intros H; by apply H). }
  rewrite Hget. done.
Qed.

(** A query that names the device does reach the connection: its log
    grows by the request. *)
Lemma getDevice_by_name_executes (native : ByteOrder)
    (kernel : list Request → Request → result (list Message)) (c : client) :
  length (c_conn (snd (getDevice native kernel 0 "wg0" c)))
  = S (length (c_conn c)).
Proof.
  unfold getDevice. rewrite decide_False by (intros H; by apply H).
  rewrite decide_True by done.
  unfold execute.
  assert (∃ b, MarshalAttributes native
                 [mkAttribute DeviceAIfname (nlenc_Bytes "wg0")] = Ok b)
    as [b ->] by (destruct native; eexists; vm_compute; reflexivity).
  unfold Conn_Execute.
  destruct (kernel _ _) as [msgs|e]; [|case_decide];
    cbn [snd c_conn]; rewrite length_app; simpl; lia.
Qed.

(** ** Unknown attribute types *)

Lemma parseDevice_attr_unknown (native : ByteOrder) (d : Device)
    (u : Attribute) :
  unknownDeviceType (a_Type u) → parseDevice_attr native d u = Ok d.
Proof.
  intros H. unfold unknownDeviceType in H. split_unknown H.
  unfold parseDevice_attr. by rewrite !decide_False by done.
Qed.

Lemma parsePeer_attr_unknown (native : ByteOrder) (p : Peer)
    (u : Attribute) :
  unknownPeerType (a_Type u) → parsePeer_attr native p u = Ok p.
Proof.
  intros H. unfold unknownPeerType in H. split_unknown H.
  unfold parsePeer_attr. by rewrite !decide_False by done.
Qed.

Lemma parseAllowedIP_attr_unknown (native : ByteOrder)
    (st : allowedipState) (u : Attribute) :
  unknownAllowedipType (a_Type u) → parseAllowedIP_attr native st u = Ok st.
Proof.
  intros H. unfold unknownAllowedipType in H. split_unknown H.
  unfold parseAllowedIP_attr. by rewrite !decide_False by done.
Qed.

Lemma parseDeviceLoop_skips_unknown (native : ByteOrder) (m m' : Message)
    (pre post : list Attribute) (u : Attribute) :
  UnmarshalAttributes native (m_Data m) = Ok (pre ++ u :: post) →
  UnmarshalAttributes native (m_Data m') = Ok (pre ++ post) →
  unknownDeviceType (a_Type u) →
  parseDeviceLoop native m = parseDeviceLoop native m'.
Proof.
  intros Hm Hm' Hu.
  unfold parseDeviceLoop, NewAttributeDecoder. rewrite Hm, Hm', !bind_Ok.
  apply foldM_skip. intros d. by apply parseDevice_attr_unknown.
Qed.

Lemma parsePeer_skips_unknown (native : ByteOrder) (e e' : Attribute)
    (pre post : list Attribute) (u : Attribute) :
  UnmarshalAttributes native (a_Data e) = Ok (pre ++ u :: post) →
  UnmarshalAttributes native (a_Data e') = Ok (pre ++ post) →
  unknownPeerType (a_Type u) →
  parsePeer native e = parsePeer native e'.
Proof.
  intros He He' Hu.
  unfold parsePeer, NewAttributeDecoder. rewrite He, He', !bind_Ok.
  apply foldM_skip. intros p. by apply parsePeer_attr_unknown.
Qed.

Lemma parseAllowedIP_skips_unknown (native : ByteOrder) (e e' : Attribute)
    (pre post : list Attribute) (u : Attribute) :
  UnmarshalAttributes native (a_Data e) = Ok (pre ++ u :: post) →
  UnmarshalAttributes native (a_Data e') = Ok (pre ++ post) →
  unknownAllowedipType (a_Type u) →
  parseAllowedIP native e = parseAllowedIP native e'.
Proof.
  intros He He' Hu.
  unfold parseAllowedIP, NewAttributeDecoder. rewrite He, He', !bind_Ok.
  rewrite (foldM_skip (parseAllowedIP_attr native) pre post u); [done|].
  intros st. by apply parseAllowedIP_attr_unknown.
Qed.

(** C7: a device message whose walk yields the records [pre], then a
    record [u] of a type code the device decoder does not know, then
    [post], decodes to what the message without [u] decodes to: to the
    same Device when that one decodes, so [u] raises no error.  The same
    holds one level down for a peer record inside a peer list, and two
    levels down for a network record inside an allowed-IP list. *)
Theorem unknown_attributes_ignored (native : ByteOrder) :
  (∀ (m m' : Message) (pre post : list Attribute) (u : Attribute),
     UnmarshalAttributes native (m_Data m) = Ok (pre ++ u :: post) →
     UnmarshalAttributes native (m_Data m') = Ok (pre ++ post) →
     unknownDeviceType (a_Type u) →
     parseDeviceLoop native m = parseDeviceLoop native m')
  ∧ (∀ (b b' : list byte) (els els' : list Attribute) (e e' : Attribute)
       (pre post : list Attribute) (u : Attribute),
       UnmarshalAttributes native b = Ok (els ++ e :: els') →
       UnmarshalAttributes native b' = Ok (els ++ e' :: els') →
       UnmarshalAttributes native (a_Data e) = Ok (pre ++ u :: post) →
       UnmarshalAttributes native (a_Data e') = Ok (pre ++ post) →
       unknownPeerType (a_Type u) →
       parsePeers native b = parsePeers native b')
  ∧ (∀ (b b' : list byte) (els els' : list Attribute) (e e' : Attribute)
       (pre post : list Attribute) (u : Attribute),
       UnmarshalAttributes native b = Ok (els ++ e :: els') →
       UnmarshalAttributes native b' = Ok (els ++ e' :: els') →
       UnmarshalAttributes native (a_Data e) = Ok (pre ++ u :: post) →
       UnmarshalAttributes native (a_Data e') = Ok (pre ++ post) →
       unknownAllowedipType (a_Type u) →
       parseAllowedIPs native b = parseAllowedIPs native b').
Proof.
  split; [|split].
  - apply parseDeviceLoop_skips_unknown.
  - intros b b' els els' e e' pre post u Hb Hb' He He' Hu.
    unfold parsePeers. rewrite Hb, Hb', !bind_Ok.
    apply foldM_replace. intros ps.
    by rewrite (parsePeer_skips_unknown native e e' pre post u).
  - intros b b' els els' e e' pre post u Hb Hb' He He' Hu.
    unfold parseAllowedIPs. rewrite Hb, Hb', !bind_Ok.
    apply foldM_replace. intros ipns.
    by rewrite (parseAllowedIP_skips_unknown native e e' pre post u).
Qed.

(** The three levels on sample buffers in little-endian framing. *)
Lemma unknown_attributes_ignored_witness :
  parseDeviceLoop LittleEndian message_with_unknown
    = parseDeviceLoop LittleEndian message_without_unknown
  ∧ parsePeers LittleEndian peers_with_unknown
    = parsePeers LittleEndian peers_without_unknown
  ∧ parseAllowedIPs LittleEndian allowedips_with_unknown
    = parseAllowedIPs LittleEndian allowedips_without_unknown.
Proof.
  destruct (unknown_attributes_ignored LittleEndian) as (Hdev & Hpeer & Hip).
  split; [|split].
  - apply (Hdev _ _
             [mkAttribute DeviceAIfname (bytes [119; 103; 48; 0])]
             [mkAttribute DeviceAListenPort (bytes [108; 202])]
             (mkAttribute 99 (bytes [1; 2; 3; 4; 5])));
      [reflexivity|reflexivity|].
    vm_compute. intros H. repeat (inversion H as [|? ? ? H']; clear H;
      rename H' into H).
  - apply (Hpeer _ _ [] []
             (mkAttribute 0 (drop 4 peers_with_unknown))
             (mkAttribute 0 (drop 4 peers_without_unknown))
             [mkAttribute PeerAPersistentKeepaliveInterval (bytes [25; 0])]
             [mkAttribute PeerARxBytes (bytes [0; 16; 0; 0; 0; 0; 0; 0])]
             (mkAttribute 77 (bytes [1])));
      [reflexivity|reflexivity|reflexivity|reflexivity|].
    vm_compute. intros H. repeat (inversion H as [|? ? ? H']; clear H;
      rename H' into H).
  - apply (Hip _ _ [] []
             (mkAttribute 0 (drop 4 allowedips_with_unknown))
             (mkAttribute 0 (drop 4 allowedips_without_unknown))
             [mkAttribute AllowedipAFamily (bytes [2; 0])]
             [mkAttribute AllowedipAIpaddr (bytes [10; 0; 0; 0]);
              mkAttribute AllowedipACidrMask (bytes [8])]
             (mkAttribute 9 (bytes [1; 2; 3; 4])));
      [reflexivity|reflexivity|reflexivity|reflexivity|].
    vm_compute. intros H. repeat (inversion H as [|? ? ? H']; clear H;
      rename H' into H).
Defined.

(** The sample buffers decode without error. *)
Example message_with_unknown_decodes :
  parseDeviceLoop LittleEndian message_with_unknown
  = Ok (set_d_ListenPort (set_d_Name zeroDevice "wg0") 51820).
Proof. vm_compute. reflexivity. Qed.

Example peers_with_unknown_decode :
  parsePeers LittleEndian peers_with_unknown
  = Ok [set_p_ReceiveBytes
          (set_p_PersistentKeepaliveInterval zeroPeer (25 * 1000000000))
          4096].
Proof. vm_compute. reflexivity. Qed.

Example allowedips_with_unknown_decode :
  parseAllowedIPs LittleEndian allowedips_with_unknown
  = Ok [net_10_0_0_0_8].
Proof. vm_compute. reflexivity. Qed.

(** On the wire: framing the records with and without [u] gives two
    messages that decode alike. *)
Lemma parseDeviceLoop_unknown_on_the_wire (native : ByteOrder)
    (hdr : genl_Header) (pre post : list Attribute) (u : Attribute)
    (b b' : list byte) :
  MarshalAttributes native (pre ++ u :: post) = Ok b →
  MarshalAttributes native (pre ++ post) = Ok b' →
  Forall (λ a, 0 ≤ a_Type a < 65536) (pre ++ u :: post) →
  unknownDeviceType (a_Type u) →
  parseDeviceLoop native (mkMessage hdr b)
  = parseDeviceLoop native (mkMessage hdr b').
Proof.
  intros Hb Hb' Hty Hu.
  apply (parseDeviceLoop_skips_unknown native _ _ pre post u); [| |done].
  - by apply Unmarshal_Marshal.
  - apply Unmarshal_Marshal; [done|].
    apply Forall_app in Hty as [Hpre Hpost].
    apply Forall_cons in Hpost as [_ Hpost]. by apply Forall_app.
Qed.

(** ** The merge *)

Lemma allowedIPsOf_cons (k : Key) (p : Peer) (ps : list Peer) :
  allowedIPsOf k (p :: ps)
  = (if decide (k = p_PublicKey p) then p_AllowedIPs p else [])
      ++ allowedIPsOf k ps.
Proof. reflexivity. Qed.

Lemma newPeers_known (known : gset Key) (dps : list Peer) :
  (∀ k, k ∈ peerKeys dps → k ∈ known) → newPeers known dps = [].
Proof.
  induction dps as [|p r IH]; intros Hin; simpl; [done|].
  rewrite decide_True by (apply Hin; cbn; by left).
  apply IH. intros k Hk. apply Hin. cbn. by right.
Qed.

Lemma merge_peer_step (key_j : Key) (ipns : list IPNet) (peers : list Peer)
    (known : gset Key) (dp : Peer) :
  merge_peer key_j (ipns, peers, known) dp
  = if decide (key_j = p_PublicKey dp)
    then (ipns ++ p_AllowedIPs dp, peers, known)
    else if decide (p_PublicKey dp ∈ known) then (ipns, peers, known)
    else (ipns, peers ++ [dp], {[p_PublicKey dp]} ∪ known).
Proof. reflexivity. Qed.

(** The inner loop, for a target peer whose key is known: the matching
    allowed IPs are collected, the peers with new keys are appended, and
    every key of [dps] ends up known. *)
Lemma merge_peer_foldl (key_j : Key) (dps : list Peer) :
  ∀ (ipns : list IPNet) (peers : list Peer) (known : gset Key),
    key_j ∈ known →
    foldl (merge_peer key_j) (ipns, peers, known) dps
    = (ipns ++ allowedIPsOf key_j dps,
       peers ++ newPeers known dps,
       list_to_set (peerKeys dps) ∪ known).
Proof.
  induction dps as [|dp r IH]; intros ipns peers known Hk.
  - simpl. rewrite !app_nil_r. f_equal. key_sets.
  - rewrite allowedIPsOf_cons. cbn [foldl newPeers]. rewrite merge_peer_step.
    destruct (decide (key_j = p_PublicKey dp)) as [He|Hne].
    + rewrite IH by done. rewrite decide_True by (by rewrite <- He).
      rewrite <- app_assoc. f_equal. key_sets.
    + destruct (decide (p_PublicKey dp ∈ known)) as [Hin|Hnin].
      * rewrite IH by done. f_equal. key_sets.
      * rewrite IH by (by apply elem_of_union_r).
        rewrite <- app_assoc. simpl. f_equal. key_sets.
Qed.

Lemma peerKeys_absorb (dps tps : list Peer) :
  peerKeys (absorb dps <$> tps) = peerKeys tps.
Proof.
  unfold peerKeys. rewrite <- list_fmap_compose. by apply list_fmap_ext.
Qed.

(** The outer loop from index [start] on: the peers before [start] are
    left as they are, those from [start] on absorb their namesakes; the
    first round appends the new peers, the later rounds find none. *)
Lemma merge_at_foldl (dps : list Peer) :
  ∀ (len start : nat) (tps peers : list Peer) (known : gset Key),
    length tps = (start + len)%nat →
    (∀ k, k ∈ peerKeys tps → k ∈ known) →
    foldl (merge_at dps) (mkMergeState tps peers known) (seq start len)
    = mkMergeState
        (take start tps ++ (absorb dps <$> drop start tps))
        (peers ++ match len with O => [] | S _ => newPeers known dps end)
        (match len with
         | O => known
         | S _ => list_to_set (peerKeys dps) ∪ known
         end).
Proof.
  induction len as [|len IH]; intros start tps peers known Hlen Hkeys.
  - simpl. rewrite drop_ge by lia. rewrite take_ge by lia.
    by rewrite !app_nil_r.
  - cbn [seq foldl].
    destruct (lookup_lt_is_Some_2 tps start ltac:(lia)) as [tp Htp].
    assert (p_PublicKey tp ∈ known) as Hin.
    { apply Hkeys. unfold peerKeys. apply list_elem_of_fmap.
      exists tp. split; [done|]. by eapply list_elem_of_lookup_2. }
    unfold merge_at at 2. cbn [ms_target ms_peers ms_known]. rewrite Htp.
    rewrite merge_peer_foldl by done.
    change (set_p_AllowedIPs tp
              (p_AllowedIPs tp ++ [] ++ allowedIPsOf (p_PublicKey tp) dps))
      with (absorb dps tp).
    rewrite IH.
    + f_equal.
      * rewrite (take_S_r _ _ (absorb dps tp))
          by (apply list_lookup_insert_eq; lia).
        rewrite take_insert_ge by lia. rewrite drop_insert_lt by lia.
        rewrite (drop_S _ _ _ Htp). rewrite fmap_cons.
        by rewrite <- app_assoc.
      * rewrite <- app_assoc. f_equal.
        destruct len; [by rewrite app_nil_r|].
        rewrite (newPeers_known (list_to_set (peerKeys dps) ∪ known) dps);
          [by rewrite app_nil_r|].
        intros k Hk. apply elem_of_union_l.
        by apply elem_of_list_to_set.
      * destruct len; [done|]. key_sets.
    + rewrite length_insert. lia.
    + intros k Hk. apply elem_of_union_r. apply Hkeys.
      revert Hk. unfold peerKeys. rewrite list_fmap_insert.
      rewrite list_insert_id; [done|].
      by rewrite list_lookup_fmap, Htp.
Qed.

(** What [mergeDevices] computes: every target peer takes the allowed IPs
    of its namesakes in [d], and, when the target has at least one peer,
    the peers of [d] with keys new to the target follow, each key once. *)
Lemma mergeDevices_spec (target d : Device) :
  mergeDevices target d
  = Ok (set_d_Peers target
          ((absorb (d_Peers d) <$> d_Peers target)
             ++ match d_Peers target with
                | [] => []
                | _ :: _ =>
                  newPeers (list_to_set (peerKeys (d_Peers target)))
                    (d_Peers d)
                end)).
Proof.
  unfold mergeDevices. rewrite merge_at_foldl.
  - cbn [ms_target ms_peers]. rewrite take_0, drop_0. simpl.
    by destruct (d_Peers target).
  - done.
  - intros k Hk. by apply elem_of_list_to_set.
Qed.

Lemma newPeers_list (dps : list Peer) :
  ∀ ks : list Key, newPeers (list_to_set ks) dps = newPeersL ks dps.
Proof.
  induction dps as [|p r IH]; intros ks; [done|].
  cbn [newPeers newPeersL].
  destruct (decide (p_PublicKey p ∈ ks)) as [Hin|Hnin].
  - rewrite decide_True by (by apply elem_of_list_to_set). apply IH.
  - rewrite decide_False by (by rewrite elem_of_list_to_set).
    f_equal. apply (IH (p_PublicKey p :: ks)).
Qed.

(** [mergeDevices_spec] in a form that evaluates on concrete devices. *)
Lemma mergeDevices_eval (target d : Device) :
  mergeDevices target d
  = Ok (set_d_Peers target
          ((absorb (d_Peers d) <$> d_Peers target)
             ++ match d_Peers target with
                | [] => []
                | _ :: _ => newPeersL (peerKeys (d_Peers target)) (d_Peers d)
                end)).
Proof. rewrite mergeDevices_spec. by rewrite newPeers_list. Qed.

Lemma set_p_AllowedIPs_id (p : Peer) :
  set_p_AllowedIPs p (p_AllowedIPs p) = p.
Proof. by destruct p. Qed.

Lemma absorb_no_namesake (dps : list Peer) (tp : Peer) :
  allowedIPsOf (p_PublicKey tp) dps = [] → absorb dps tp = tp.
Proof.
  intros H. unfold absorb. rewrite H, app_nil_r. apply set_p_AllowedIPs_id.
Qed.

(** C1: for a target with peers [A; B] of distinct keys and a
    continuation that holds a peer with A's key and the one allowed IP
    [ip], then a peer C with a key of its own, [mergeDevices] returns the
    target with peers [A; B; C] in that order: A's allowed IPs are its
    own followed by [ip], B is unchanged, and C is the continuation's C,
    with exactly its allowed IPs. *)
Theorem mergeDevices_union (target d : Device) (A B A' C : Peer)
    (ip : IPNet) :
  d_Peers target = [A; B] →
  d_Peers d = [A'; C] →
  p_PublicKey A ≠ p_PublicKey B →
  p_PublicKey A' = p_PublicKey A →
  p_AllowedIPs A' = [ip] →
  p_PublicKey C ≠ p_PublicKey A →
  p_PublicKey C ≠ p_PublicKey B →
  mergeDevices target d
  = Ok (set_d_Peers target
          [set_p_AllowedIPs A (p_AllowedIPs A ++ [ip]); B; C]).
Proof.
  intros Ht Hd HAB HA' Hip HCA HCB. rewrite mergeDevices_spec, Ht, Hd.
  do 2 f_equal. cbn [fmap list_fmap app newPeers peerKeys].
  rewrite decide_True
    by (rewrite HA'; apply elem_of_union_l; by apply elem_of_singleton).
  rewrite decide_False.
  2:{ cbn [list_to_set].
      rewrite !elem_of_union, !elem_of_singleton, elem_of_empty.
      intuition congruence. }
  cbn [newPeers].
  f_equal; [|f_equal].
  - unfold absorb. rewrite !allowedIPsOf_cons.
    rewrite decide_True by done. rewrite decide_False by done.
    by rewrite Hip.
  - apply absorb_no_namesake. rewrite !allowedIPsOf_cons.
    by rewrite !decide_False by congruence.
Qed.

(** The scenario with A holding 10.0.0.0/8, the continuation bringing
    10.0.0.1/32 for A and the peer C with 192.168.0.0/16. *)
Lemma mergeDevices_union_witness :
  mergeDevices dump_first_device dump_continuation_device
  = Ok (set_d_Peers dump_first_device
          [set_p_AllowedIPs (peer_of keyA [net_10_0_0_0_8])
             (p_AllowedIPs (peer_of keyA [net_10_0_0_0_8])
                ++ [net_10_0_0_1_32]);
           peer_of keyB [];
           peer_of keyC [net_192_168_0_0_16]]).
Proof.
  apply (mergeDevices_union dump_first_device dump_continuation_device
           (peer_of keyA [net_10_0_0_0_8]) (peer_of keyB [])
           (peer_of keyA [net_10_0_0_1_32])
           (peer_of keyC [net_192_168_0_0_16]) net_10_0_0_1_32);
    try reflexivity; vm_compute; discriminate.
Defined.

(** C2: when the target has no peer, [mergeDevices] returns it as it is,
    whatever peers [d] holds: none of them is appended. *)
Theorem mergeDevices_empty_target_appends_nothing (target d : Device) :
  mergeDevices (set_d_Peers target []) d = Ok (set_d_Peers target []).
Proof. by rewrite mergeDevices_spec. Qed.

(** The zero Device merged with the continuation of the sample dump,
    whose peers A and C are both new to it, keeps an empty peer list. *)
Example mergeDevices_empty_target_sample :
  mergeDevices zeroDevice dump_continuation_device = Ok zeroDevice
  ∧ d_Peers dump_continuation_device
    = [peer_of keyA [net_10_0_0_1_32]; peer_of keyC [net_192_168_0_0_16]].
Proof. split; reflexivity. Qed.

(** X1: with at least one peer in the target, every peer of [d] whose key
    is neither in the target nor held by an earlier peer of [d] is among
    the peers of the result. *)
Lemma mergeDevices_appends_new_peers (target d dev : Device) (i : nat)
    (p : Peer) :
  d_Peers target ≠ [] →
  mergeDevices target d = Ok dev →
  d_Peers d !! i = Some p →
  p_PublicKey p ∉ peerKeys (d_Peers target) →
  p_PublicKey p ∉ peerKeys (take i (d_Peers d)) →
  p ∈ d_Peers dev.
Proof.
  intros Hne. rewrite mergeDevices_spec. intros <-%Ok_inj Hi Hnt Hnd.
  cbn [d_Peers set_d_Peers]. apply elem_of_app. right.
  destruct (d_Peers target) as [|t0 ts] eqn:Ht; [done|].
  assert (∀ (dps : list Peer) (j : nat) (known : gset Key),
            dps !! j = Some p → p_PublicKey p ∉ known →
            p_PublicKey p ∉ peerKeys (take j dps) →
            p ∈ newPeers known dps) as Hnew.
  { induction dps as [|q r IH]; intros j known Hj Hk Hbefore; [done|].
    destruct j as [|j]; simpl in Hj.
    - injection Hj as ->. simpl. rewrite decide_False by done. by left.
    - assert (p_PublicKey p ≠ p_PublicKey q) as Hpq.
      { intros He. apply Hbefore. cbn. rewrite He. by left. }
      assert (p_PublicKey p ∉ peerKeys (take j r)) as Hr.
      { intros Hin. apply Hbefore. cbn. by right. }
      simpl. destruct (decide (p_PublicKey q ∈ known)).
      + by apply (IH j).
      + right. apply (IH j); [done| |done].
        rewrite elem_of_union, elem_of_singleton. intuition congruence. }
  apply (Hnew _ i); [done| |done].
  by rewrite elem_of_list_to_set.
Qed.

(** ** [parseDevice] *)

(** C4: [parseDevice] on a single message returns what [parseDeviceLoop]
    returns for that message, error or Device; no merge takes place. *)
Theorem parseDevice_single_message (native : ByteOrder) (m : Message) :
  parseDevice native [m] = parseDeviceLoop native m.
Proof.
  unfold parseDevice. cbn [parseDevice_loop].
  destruct (parseDeviceLoop native m) as [d|e]; [|done].
  rewrite bind_Ok. by rewrite decide_True.
Qed.

(** C10: on an empty sequence of messages [parseDevice] does not fail; it
    returns the zero Device: empty name, zero keys, zero port and mark,
    no peers. *)
Theorem parseDevice_no_message (native : ByteOrder) :
  parseDevice native [] = Ok zeroDevice
  ∧ d_Name zeroDevice = ""
  ∧ vec_to_list (d_PrivateKey zeroDevice) = replicate 32 Byte.x00
  ∧ vec_to_list (d_PublicKey zeroDevice) = replicate 32 Byte.x00
  ∧ d_ListenPort zeroDevice = 0
  ∧ d_FirewallMark zeroDevice = 0
  ∧ d_Peers zeroDevice = [].
Proof. repeat split. Qed.

Lemma newPeers_sound (dps : list Peer) :
  ∀ known : gset Key,
    NoDup (peerKeys (newPeers known dps))
    ∧ ∀ p, p ∈ newPeers known dps → p ∈ dps ∧ p_PublicKey p ∉ known.
Proof.
  induction dps as [|q r IH]; intros known; simpl.
  - split; [constructor|]. intros p Hp. by apply elem_of_nil in Hp.
  - destruct (decide (p_PublicKey q ∈ known)) as [Hin|Hnin].
    + destruct (IH known) as [Hnd Hp]. split; [done|].
      intros p Hpin. destruct (Hp p Hpin). split; [by right|done].
    + destruct (IH ({[p_PublicKey q]} ∪ known)) as [Hnd Hp].
      split.
      * cbn. constructor; [|done].
        intros Hq. apply list_elem_of_fmap in Hq as (p & Hk & Hpin).
        destruct (Hp p Hpin) as [_ Hn]. apply Hn. rewrite <- Hk.
        apply elem_of_union_l. by apply elem_of_singleton.
      * intros p Hpin. apply elem_of_cons in Hpin as [->|Hpin].
        -- split; [by left|done].
        -- destruct (Hp p Hpin) as [? Hn]. split; [by right|].
           intros Hk. apply Hn. by apply elem_of_union_r.
Qed.

Lemma newPeers_complete (dps : list Peer) :
  ∀ (known : gset Key) p,
    p ∈ dps →
    p_PublicKey p ∈ known
    ∨ p_PublicKey p ∈ peerKeys (newPeers known dps).
Proof.
  induction dps as [|q r IH]; intros known p Hp.
  - by apply elem_of_nil in Hp.
  - simpl. apply elem_of_cons in Hp as [->|Hp].
    + destruct (decide (p_PublicKey q ∈ known)); [by left|].
      right. cbn. by left.
    + destruct (decide (p_PublicKey q ∈ known)) as [Hin|Hnin].
      * by apply IH.
      * destruct (IH ({[p_PublicKey q]} ∪ known) p Hp) as [Hk|Hk].
        -- apply elem_of_union in Hk as [Hk|Hk]; [|by left].
           apply elem_of_singleton in Hk. right. cbn. rewrite Hk. by left.
        -- right. cbn. by right.
Qed.

Lemma allowedIPsOf_absent (k : Key) (ps : list Peer) :
  k ∉ peerKeys ps → allowedIPsOf k ps = [].
Proof.
  induction ps as [|p r IH]; intros Hk; [done|].
  rewrite allowedIPsOf_cons. rewrite decide_False.
  - apply IH. intros Hin. apply Hk. cbn. by right.
  - intros ->. apply Hk. cbn. by left.
Qed.

Lemma allowedIPsOf_unique (q : Peer) (ps : list Peer) :
  NoDup (peerKeys ps) → q ∈ ps →
  allowedIPsOf (p_PublicKey q) ps = p_AllowedIPs q.
Proof.
  induction ps as [|p r IH]; intros Hnd Hq.
  - by apply elem_of_nil in Hq.
  - cbn in Hnd. apply NoDup_cons in Hnd as [Hp Hnd].
    rewrite allowedIPsOf_cons. apply elem_of_cons in Hq as [->|Hq].
    + rewrite decide_True by done.
      rewrite allowedIPsOf_absent by done. apply app_nil_r.
    + rewrite decide_False.
      * by apply IH.
      * intros He. apply Hp. rewrite <- He.
        apply list_elem_of_fmap. by exists q.
Qed.

Lemma allowedIPsAcross_snoc (k : Key) (ds : list Device) (d : Device) :
  allowedIPsAcross k (ds ++ [d])
  = allowedIPsAcross k ds ++ allowedIPsOf k (d_Peers d).
Proof.
  unfold allowedIPsAcross. rewrite bind_app. simpl. by rewrite app_nil_r.
Qed.

Lemma allowedIPsAcross_absent (k : Key) (ds : list Device) :
  (∀ d, d ∈ ds → k ∉ peerKeys (d_Peers d)) → allowedIPsAcross k ds = [].
Proof.
  induction ds as [|d r IH]; intros Hk; [done|].
  unfold allowedIPsAcross. cbn.
  rewrite allowedIPsOf_absent by (apply Hk; by left).
  apply IH. intros d' Hd'. apply Hk. by right.
Qed.

(** The first message alone, when its keys are distinct. *)
Lemma merged_first (d0 : Device) :
  NoDup (peerKeys (d_Peers d0)) → merged d0 [d0].
Proof.
  intros Hnd. split; [done|]. split.
  - intros p Hp. unfold allowedIPsAcross. cbn. rewrite app_nil_r.
    symmetry. by apply allowedIPsOf_unique.
  - intros d q Hd Hq. apply list_elem_of_singleton in Hd as ->.
    apply list_elem_of_fmap. by exists q.
Qed.

(** One merge keeps the loop's state [merged], for a target with at
    least one peer and a continuation whose keys are distinct. *)
Lemma merged_step (first d first' : Device) (seen : list Device) :
  merged first seen →
  d_Peers first ≠ [] →
  NoDup (peerKeys (d_Peers d)) →
  mergeDevices first d = Ok first' →
  merged first' (seen ++ [d]) ∧ d_Peers first' ≠ [].
Proof.
  intros (Hnd & Hips & Hcov) Hne Hd. rewrite mergeDevices_spec.
  intros [= <-]. unfold merged. cbn [d_Peers set_d_Peers].
  destruct (d_Peers first) as [|t0 ts] eqn:Hpeers; [done|]. clear Hne.
  set (known := list_to_set (peerKeys (t0 :: ts)) : gset Key).
  destruct (newPeers_sound (d_Peers d) known) as [Hnew_nd Hnew].
  assert (∀ k, k ∈ known ↔ k ∈ peerKeys (t0 :: ts)) as Hknown
    by (intros k; apply elem_of_list_to_set).
  split; [|done]. split; [|split].
  - unfold peerKeys. rewrite fmap_app. apply NoDup_app. split; [|split].
    + fold (peerKeys (absorb (d_Peers d) <$> t0 :: ts)).
      by rewrite peerKeys_absorb.
    + intros k Hk1 Hk2.
      fold (peerKeys (absorb (d_Peers d) <$> t0 :: ts)) in Hk1.
      rewrite peerKeys_absorb in Hk1.
      apply list_elem_of_fmap in Hk2 as (p & -> & Hp).
      destruct (Hnew p Hp) as [_ Hn]. apply Hn. by apply Hknown.
    + done.
  - intros p Hp. rewrite allowedIPsAcross_snoc.
    apply elem_of_app in Hp as [Hp|Hp].
    + apply list_elem_of_fmap in Hp as (tp & -> & Htp).
      cbn. f_equal. by apply Hips.
    + destruct (Hnew p Hp) as [Hpd Hn].
      rewrite allowedIPsAcross_absent.
      * simpl. symmetry. by apply allowedIPsOf_unique.
      * intros d' Hd' Hin. apply Hn. apply Hknown.
        apply list_elem_of_fmap in Hin as (q & Hq & Hqin).
        rewrite Hq. by eapply Hcov.
  - intros d' q Hd' Hq. unfold peerKeys. rewrite fmap_app.
    fold (peerKeys (absorb (d_Peers d) <$> t0 :: ts)).
    rewrite peerKeys_absorb. apply elem_of_app.
    apply elem_of_app in Hd' as [Hd'|Hd'].
    + left. by eapply Hcov.
    + apply list_elem_of_singleton in Hd' as ->.
      destruct (newPeers_complete (d_Peers d) known q Hq) as [Hk|Hk].
      * left. by apply Hknown.
      * by right.
Qed.

(** The loop of [parseDevice] past its first round. *)
Lemma parseDevice_loop_merged (native : ByteOrder) (msgs : list Message) :
  ∀ (ds : list Device) (i : nat) (first : Device) (seen : list Device),
    i ≠ 0%nat →
    traverse (parseDeviceLoop native) msgs = Ok ds →
    Forall (λ d, NoDup (peerKeys (d_Peers d))) ds →
    merged first seen →
    d_Peers first ≠ [] →
    ∃ dev,
      parseDevice_loop native i first msgs = Ok dev
      ∧ merged dev (seen ++ ds).
Proof.
  induction msgs as [|m rest IH]; intros ds i first seen Hi Htr Hnd Hm Hne.
  - injection Htr as <-. exists first. by rewrite app_nil_r.
  - apply traverse_cons_inv in Htr as (d & ds' & Hd & Htr & ->).
    apply Forall_cons in Hnd as [Hd_nd Hnd].
    cbn [parseDevice_loop]. rewrite Hd, bind_Ok.
    rewrite decide_False by done.
    destruct (mergeDevices first d) as [first'|e] eqn:Hmerge;
      [|by rewrite mergeDevices_spec in Hmerge].
    destruct (merged_step first d first' seen Hm Hne Hd_nd Hmerge)
      as [Hm' Hne'].
    rewrite bind_Ok.
    destruct (IH ds' (S i) first' (seen ++ [d])) as (dev & Hdev & Hfin);
      try done.
    exists dev. split; [done|]. by rewrite <- app_assoc in Hfin.
Qed.

(** A target without peers comes back from every merge as it is. *)
Lemma mergeDevices_peerless_target (target d : Device) :
  d_Peers target = [] → mergeDevices target d = Ok target.
Proof.
  intros Ht. rewrite mergeDevices_spec, Ht. cbn.
  destruct target. cbn in Ht. by subst.
Qed.

Lemma parseDevice_loop_peerless_first (native : ByteOrder)
    (msgs : list Message) :
  ∀ (ds : list Device) (i : nat) (first : Device),
    i ≠ 0%nat →
    traverse (parseDeviceLoop native) msgs = Ok ds →
    d_Peers first = [] →
    parseDevice_loop native i first msgs = Ok first.
Proof.
  induction msgs as [|m rest IH]; intros ds i first Hi Htr Hfirst; [done|].
  apply traverse_cons_inv in Htr as (d & ds' & Hd & Htr & ->).
  cbn [parseDevice_loop]. rewrite Hd, bind_Ok, decide_False by done.
  rewrite mergeDevices_peerless_target, bind_Ok by done.
  by apply (IH ds').
Qed.

(** C3, amended: when the messages decode to the devices [ds] and the
    peers of every message have pairwise distinct public keys, then
    [parseDevice] succeeds and its postcondition holds: the peers of the
    result have pairwise distinct keys and each holds the concatenation,
    duplicates kept, of the allowed IPs of its key across the messages. *)
Theorem parseDevice_merges_distinct_peers (native : ByteOrder)
    (msgs : list Message) (ds : list Device) :
  traverse (parseDeviceLoop native) msgs = Ok ds →
  Forall (λ d, NoDup (peerKeys (d_Peers d))) ds →
  (∃ dev, parseDevice native msgs = Ok dev)
  ∧ parseDevice_postcondition native msgs.
Proof.
  intros Htr Hnd.
  assert (∃ dev, parseDevice native msgs = Ok dev
                 ∧ NoDup (peerKeys (d_Peers dev))
                 ∧ ∀ p, p ∈ d_Peers dev →
                     p_AllowedIPs p = allowedIPsAcross (p_PublicKey p) ds)
    as (dev & Hdev & Hkeys & Hips).
  { destruct msgs as [|m rest].
    - injection Htr as <-. exists zeroDevice.
      split; [done|]. split; [constructor|].
      intros p Hp. by apply elem_of_nil in Hp.
    - apply traverse_cons_inv in Htr as (d0 & ds' & Hd0 & Htr & ->).
      apply Forall_cons in Hnd as [Hd0_nd Hnd].
      unfold parseDevice. cbn [parseDevice_loop]. rewrite Hd0, bind_Ok.
      rewrite decide_True by done.
      destruct rest as [|m' rest].
      + injection Htr as <-. exists d0. split; [done|].
        by destruct (merged_first d0 Hd0_nd) as (? & ? & _).
      + destruct (decide (d_Peers d0 = [])) as [Hpeers|Hpeers].
        * exists d0. split; [|rewrite Hpeers; split].
          -- by apply (parseDevice_loop_peerless_first native _ ds').
          -- constructor.
          -- intros p Hp. by apply elem_of_nil in Hp.
        * destruct (parseDevice_loop_merged native (m' :: rest) ds' 1 d0
                      [d0]) as (dev & Hdev & Hm & Hi & _); try done.
          -- by apply merged_first.
          -- by exists dev. }
  split; [by exists dev|].
  intros dev' ds' Hdev' Hds'. rewrite Hdev in Hdev'. rewrite Htr in Hds'.
  injection Hdev' as <-. injection Hds' as <-. done.
Qed.

(** The sample dump of two messages. *)
Lemma parseDevice_merges_distinct_peers_witness :
  (∃ dev, parseDevice LittleEndian [dump_first; dump_continuation] = Ok dev)
  ∧ parseDevice_postcondition LittleEndian [dump_first; dump_continuation].
Proof.
  apply (parseDevice_merges_distinct_peers LittleEndian
           [dump_first; dump_continuation]
           [dump_first_device; dump_continuation_device]).
  - vm_compute. reflexivity.
  - repeat apply Forall_cons_2; [| |apply Forall_nil_2];
      apply (bool_decide_unpack _); vm_compute; exact I.
Defined.

(** What the sample dump decodes to. *)
Example parseDevice_sample_dump :
  parseDevice LittleEndian [dump_first; dump_continuation]
  = Ok (device_of "wg0"
          [peer_of keyA [net_10_0_0_0_8; net_10_0_0_1_32];
           peer_of keyB [];
           peer_of keyC [net_192_168_0_0_16]]).
Proof.
  unfold parseDevice. cbn [parseDevice_loop].
  replace (parseDeviceLoop LittleEndian dump_first)
    with (Ok dump_first_device) by (vm_compute; reflexivity).
  replace (parseDeviceLoop LittleEndian dump_continuation)
    with (Ok dump_continuation_device) by (vm_compute; reflexivity).
  rewrite !bind_Ok, decide_True, decide_False by done.
  rewrite mergeDevices_eval. vm_compute. reflexivity.
Qed.

(** C3, as stated, fails: the message with two peer records that carry no
    public key decodes, alone, to a Device whose two peers both have the
    zero key. *)
Lemma parseDevice_duplicate_keys :
  ∃ dev ds,
    parseDevice LittleEndian [duplicate_key_message] = Ok dev
    ∧ traverse (parseDeviceLoop LittleEndian) [duplicate_key_message] = Ok ds
    ∧ d_Peers dev = [zeroPeer; zeroPeer]
    ∧ ¬ NoDup (peerKeys (d_Peers dev)).
Proof.
  exists (set_d_Peers zeroDevice [zeroPeer; zeroPeer]),
    [set_d_Peers zeroDevice [zeroPeer; zeroPeer]].
  split; [reflexivity|]. split; [reflexivity|]. split; [reflexivity|].
  cbn. intros Hnd. apply NoDup_cons in Hnd as [Hin _].
  apply Hin. by left.
Qed.

(** Hence the postcondition does not hold of every sequence of messages
    that [parseDevice] accepts. *)
Lemma parseDevice_postcondition_fails :
  ¬ parseDevice_postcondition LittleEndian [duplicate_key_message].
Proof.
  intros H.
  destruct (H (set_d_Peers zeroDevice [zeroPeer; zeroPeer])
              [set_d_Peers zeroDevice [zeroPeer; zeroPeer]])
    as [Hnd _]; [reflexivity|reflexivity|].
  cbn in Hnd. apply NoDup_cons in Hnd as [Hin _].
  apply Hin. by left.
Qed.

(** A key that is new to the target and occurs twice in one continuation
    is appended once, with the allowed IPs of its first occurrence only. *)
Example mergeDevices_repeated_new_key :
  mergeDevices (device_of "wg0" [peer_of keyA []])
    (device_of "wg0" [peer_of keyC [net_10_0_0_0_8];
                      peer_of keyC [net_192_168_0_0_16]])
  = Ok (device_of "wg0" [peer_of keyA []; peer_of keyC [net_10_0_0_0_8]]).
Proof. rewrite mergeDevices_eval. vm_compute. reflexivity. Qed.

(** The peer C of the sample continuation, new to the first message. *)
Lemma mergeDevices_appends_new_peers_witness :
  peer_of keyC [net_192_168_0_0_16]
  ∈ d_Peers (device_of "wg0"
               [peer_of keyA [net_10_0_0_0_8; net_10_0_0_1_32];
                peer_of keyB [];
                peer_of keyC [net_192_168_0_0_16]]).
Proof.
  apply (mergeDevices_appends_new_peers dump_first_device
           dump_continuation_device _ 1 (peer_of keyC [net_192_168_0_0_16])).
  - discriminate.
  - rewrite mergeDevices_eval. vm_compute. reflexivity.
  - reflexivity.
  - apply (bool_decide_unpack _). vm_compute. exact I.
  - apply (bool_decide_unpack _). vm_compute. exact I.
Defined.

(** ** Further properties of [parseDevice] *)

Lemma parseDevice_loop_fields (native : ByteOrder) (msgs : list Message) :
  ∀ (i : nat) (first dev : Device),
    i ≠ 0%nat →
    parseDevice_loop native i first msgs = Ok dev →
    d_Name dev = d_Name first
    ∧ d_PrivateKey dev = d_PrivateKey first
    ∧ d_PublicKey dev = d_PublicKey first
    ∧ d_ListenPort dev = d_ListenPort first
    ∧ d_FirewallMark dev = d_FirewallMark first.
Proof.
  induction msgs as [|m rest IH]; intros i first dev Hi.
  - by intros <-%Ok_inj.
  - cbn [parseDevice_loop].
    destruct (parseDeviceLoop native m) as [d|e]; [|done].
    rewrite bind_Ok, decide_False by done.
    rewrite mergeDevices_spec, bind_Ok. intros Hdev.
    by destruct (IH (S i) _ dev ltac:(done) Hdev) as (-> & -> & -> & -> & ->).
Qed.

(** X3: [mergeDevices] never fails; it leaves the name, the keys, the
    listen port and the firewall mark of the target as they are, and the
    target's peers keep their places and their keys. *)
Theorem mergeDevices_keeps_device_fields (target d : Device) :
  ∃ dev,
    mergeDevices target d = Ok dev
    ∧ d_Name dev = d_Name target
    ∧ d_PrivateKey dev = d_PrivateKey target
    ∧ d_PublicKey dev = d_PublicKey target
    ∧ d_ListenPort dev = d_ListenPort target
    ∧ d_FirewallMark dev = d_FirewallMark target
    ∧ peerKeys (take (length (d_Peers target)) (d_Peers dev))
      = peerKeys (d_Peers target).
Proof.
  eexists. split; [apply mergeDevices_spec|].
  repeat split. cbn [d_Peers set_d_Peers].
  rewrite take_app_length'; [apply peerKeys_absorb|].
  by rewrite length_fmap.
Qed.

(** X4: the first message is authoritative for every field but the peer
    list: whatever the continuations hold, the result of [parseDevice]
    has the name, keys, listen port and firewall mark decoded from the
    first message. *)
Theorem parseDevice_first_message_fields (native : ByteOrder) (m : Message)
    (rest : list Message) (d0 dev : Device) :
  parseDeviceLoop native m = Ok d0 →
  parseDevice native (m :: rest) = Ok dev →
  d_Name dev = d_Name d0
  ∧ d_PrivateKey dev = d_PrivateKey d0
  ∧ d_PublicKey dev = d_PublicKey d0
  ∧ d_ListenPort dev = d_ListenPort d0
  ∧ d_FirewallMark dev = d_FirewallMark d0.
Proof.
  intros Hd0. unfold parseDevice. cbn [parseDevice_loop].
  rewrite Hd0, bind_Ok, decide_True by done.
  by apply parseDevice_loop_fields.
Qed.

Lemma parseDevice_first_message_fields_witness :
  d_Name (device_of "wg0"
            [peer_of keyA [net_10_0_0_0_8; net_10_0_0_1_32];
             peer_of keyB [];
             peer_of keyC [net_192_168_0_0_16]])
    = d_Name dump_first_device
  ∧ zeroKey = d_PrivateKey dump_first_device
  ∧ zeroKey = d_PublicKey dump_first_device
  ∧ 0 = d_ListenPort dump_first_device
  ∧ 0 = d_FirewallMark dump_first_device.
Proof.
  apply (parseDevice_first_message_fields LittleEndian dump_first
           [dump_continuation] dump_first_device
           (device_of "wg0"
              [peer_of keyA [net_10_0_0_0_8; net_10_0_0_1_32];
               peer_of keyB [];
               peer_of keyC [net_192_168_0_0_16]])).
  - vm_compute. reflexivity.
  - unfold parseDevice. cbn [parseDevice_loop].
    replace (parseDeviceLoop LittleEndian dump_first)
      with (Ok dump_first_device) by (vm_compute; reflexivity).
    replace (parseDeviceLoop LittleEndian dump_continuation)
      with (Ok dump_continuation_device) by (vm_compute; reflexivity).
    rewrite !bind_Ok, decide_True, decide_False by done.
    rewrite mergeDevices_eval. vm_compute. reflexivity.
Defined.

Lemma parseDevice_loop_error (native : ByteOrder) (msgs : list Message)
    (m : Message) (e : error) :
  m ∈ msgs →
  parseDeviceLoop native m = Err e →
  ∀ (i : nat) (first : Device),
    ∃ e', parseDevice_loop native i first msgs = Err e'.
Proof.
  intros Hin Hm. induction msgs as [|m' rest IH]; intros i first.
  - by apply elem_of_nil in Hin.
  - cbn [parseDevice_loop]. apply elem_of_cons in Hin as [<-|Hin].
    + rewrite Hm. by exists e.
    + destruct (parseDeviceLoop native m') as [d|e0]; [|by exists e0].
      rewrite bind_Ok. destruct (decide (i = 0%nat)); [by apply IH|].
      rewrite mergeDevices_spec, bind_Ok. by apply IH.
Qed.

(** X5: a message that fails to decode, wherever it stands in the
    sequence, makes [parseDevice] fail: no partial Device is returned. *)
Theorem parseDevice_decode_error_aborts (native : ByteOrder)
    (msgs : list Message) (m : Message) (e : error) :
  m ∈ msgs →
  parseDeviceLoop native m = Err e →
  ∃ e', parseDevice native msgs = Err e'.
Proof. intros Hin Hm. by eapply parseDevice_loop_error. Qed.

(** A truncated continuation after the first message of the sample. *)
Lemma parseDevice_decode_error_aborts_witness :
  ∃ e', parseDevice LittleEndian [dump_first; truncated_message] = Err e'.
Proof.
  apply (parseDevice_decode_error_aborts LittleEndian
           [dump_first; truncated_message] truncated_message errTruncated).
  - apply elem_of_cons. right. apply elem_of_cons. by left.
  - vm_compute. reflexivity.
Defined.

(** ** Encoding, then decoding *)

Lemma copy_array_vec (n : nat) (v : vec byte n) :
  copy_array n (vec_to_list v) = v.
Proof. induction v as [|x n v IH]; simpl; [done|]. by rewrite IH. Qed.

Lemma parseDevice_attr_ifname (native : ByteOrder) (d : Device)
    (data : list byte) :
  parseDevice_attr native d (mkAttribute DeviceAIfname data)
  = Ok (set_d_Name d (nlenc_String data)).
Proof. reflexivity. Qed.

Lemma parseDevice_attr_private_key (native : ByteOrder) (d : Device)
    (data : list byte) :
  parseDevice_attr native d (mkAttribute DeviceAPrivateKey data)
  = k ← parseKey data; Ok (set_d_PrivateKey d k).
Proof. reflexivity. Qed.

(** X6: the attributes [configAttrs] builds for a Config with only the
    private key set, once framed, decode as a device message to a Device
    with that same private key. *)
Theorem configAttrs_private_key_roundtrip (native : ByteOrder)
    (name : string) (k : Key) (attrs : list Attribute) (b : list byte)
    (hdr : genl_Header) :
  configAttrs name (mkConfig (Some k) None None) = Ok attrs →
  MarshalAttributes native attrs = Ok b →
  ∃ d, parseDeviceLoop native (mkMessage hdr b) = Ok d
       ∧ d_PrivateKey d = k
       ∧ d_Name d = nlenc_String (nlenc_Bytes name).
Proof.
  intros <-%Ok_inj Hb. cbn [cfg_PrivateKey app] in Hb.
  unfold parseDeviceLoop, NewAttributeDecoder. cbn [m_Data].
  rewrite (Unmarshal_Marshal native _ b Hb).
  - rewrite bind_Ok. cbn [foldM].
    rewrite parseDevice_attr_ifname, bind_Ok.
    rewrite parseDevice_attr_private_key.
    unfold parseKey, NewKey.
    rewrite decide_True by apply length_vec_to_list.
    rewrite !bind_Ok. eexists. split; [reflexivity|].
    split; [apply copy_array_vec|reflexivity].
  - repeat constructor; done.
Qed.

Lemma configAttrs_private_key_roundtrip_witness :
  ∃ d, parseDeviceLoop LittleEndian
         (mkMessage (mkHeader CmdSetDevice GenlVersion)
            (wire [mkAttribute DeviceAIfname (nlenc_Bytes "wg0");
                   mkAttribute DeviceAPrivateKey (vec_to_list keyA)]))
       = Ok d
       ∧ d_PrivateKey d = keyA
       ∧ d_Name d = nlenc_String (nlenc_Bytes "wg0").
Proof.
  apply (configAttrs_private_key_roundtrip LittleEndian "wg0" keyA
           [mkAttribute DeviceAIfname (nlenc_Bytes "wg0");
            mkAttribute DeviceAPrivateKey (vec_to_list keyA)]).
  - reflexivity.
  - vm_compute. reflexivity.
Defined.

(** ** Distinct keys without further assumptions *)

Lemma mergeDevices_NoDup (target d dev : Device) :
  NoDup (peerKeys (d_Peers target)) →
  mergeDevices target d = Ok dev →
  NoDup (peerKeys (d_Peers dev)).
Proof.
  intros Hnd. rewrite mergeDevices_spec. intros <-%Ok_inj.
  cbn [d_Peers set_d_Peers]. unfold peerKeys. rewrite fmap_app.
  fold (peerKeys (absorb (d_Peers d) <$> d_Peers target)).
  rewrite peerKeys_absorb. apply NoDup_app. split; [done|].
  destruct (d_Peers target) as [|t0 ts] eqn:Ht.
  - split; [|constructor]. intros k Hk. by apply elem_of_nil in Hk.
  - destruct (newPeers_sound (d_Peers d)
                (list_to_set (peerKeys (t0 :: ts)))) as [Hnew_nd Hnew].
    split; [|done]. intros k Hk1 Hk2.
    apply list_elem_of_fmap in Hk2 as (p & -> & Hp).
    destruct (Hnew p Hp) as [_ Hn]. apply Hn.
    by apply elem_of_list_to_set.
Qed.

Lemma parseDevice_loop_NoDup (native : ByteOrder) (msgs : list Message) :
  ∀ (i : nat) (first dev : Device),
    i ≠ 0%nat →
    NoDup (peerKeys (d_Peers first)) →
    parseDevice_loop native i first msgs = Ok dev →
    NoDup (peerKeys (d_Peers dev)).
Proof.
  induction msgs as [|m rest IH]; intros i first dev Hi Hnd.
  - by intros <-%Ok_inj.
  - cbn [parseDevice_loop].
    destruct (parseDeviceLoop native m) as [d|e]; [|done].
    rewrite bind_Ok, decide_False by done.
    destruct (mergeDevices first d) as [first'|e] eqn:Hmerge; [|done].
    rewrite bind_Ok. apply (IH (S i)); [done|].
    by eapply mergeDevices_NoDup.
Qed.

(** X7: when the peers of the first message have pairwise distinct public
    keys, so have the peers of the Device [parseDevice] returns, whatever
    the continuation messages hold. *)
Theorem parseDevice_distinct_keys (native : ByteOrder) (m : Message)
    (rest : list Message) (d0 dev : Device) :
  parseDeviceLoop native m = Ok d0 →
  NoDup (peerKeys (d_Peers d0)) →
  parseDevice native (m :: rest) = Ok dev →
  NoDup (peerKeys (d_Peers dev)).
Proof.
  intros Hd0 Hnd. unfold parseDevice. cbn [parseDevice_loop].
  rewrite Hd0, bind_Ok, decide_True by done.
  by apply parseDevice_loop_NoDup.
Qed.

(** The sample dump of two messages. *)
Lemma parseDevice_distinct_keys_witness :
  NoDup (peerKeys
           (d_Peers (device_of "wg0"
                       [peer_of keyA [net_10_0_0_0_8; net_10_0_0_1_32];
                        peer_of keyB [];
                        peer_of keyC [net_192_168_0_0_16]]))).
Proof.
  apply (parseDevice_distinct_keys LittleEndian dump_first
           [dump_continuation] dump_first_device).
  - vm_compute. reflexivity.
  - apply (bool_decide_unpack _). vm_compute. exact I.
  - unfold parseDevice. cbn [parseDevice_loop].
    replace (parseDeviceLoop LittleEndian dump_first)
      with (Ok dump_first_device) by (vm_compute; reflexivity).
    replace (parseDeviceLoop LittleEndian dump_continuation)
      with (Ok dump_continuation_device) by (vm_compute; reflexivity).
    rewrite !bind_Ok, decide_True, decide_False by done.
    rewrite mergeDevices_eval. vm_compute. reflexivity.
Defined.

(** * Further properties *)

(** ** Integers on the wire *)

Lemma byte_to_Z_range (x : byte) : 0 ≤ byte_to_Z x < 256.
Proof.
  unfold byte_to_Z. pose proof (Byte.to_N_bounded x). lia.
Qed.

Lemma le_uint_range (b : list byte) :
  0 ≤ le_uint b < 256 ^ Z.of_nat (length b).
Proof.
  induction b as [|x r IH]; [simpl; lia|].
  cbn [le_uint length]. rewrite Nat2Z.inj_succ, Z.pow_succ_r by lia.
  pose proof (byte_to_Z_range x). lia.
Qed.

Lemma Uint_range (bo : ByteOrder) (b : list byte) :
  0 ≤ ByteOrder_Uint bo b < 256 ^ Z.of_nat (length b).
Proof.
  destruct bo; unfold ByteOrder_Uint; [apply le_uint_range|].
  rewrite <- (length_reverse b). apply le_uint_range.
Qed.

Lemma le_uint_bytes (n : nat) :
  ∀ v, le_uint (le_bytes n v) = v mod 256 ^ Z.of_nat n.
Proof.
  induction n as [|n IH]; intros v.
  - simpl. by rewrite Z.mod_1_r.
  - cbn [le_bytes le_uint]. rewrite IH, byte_to_of_Z.
    rewrite Nat2Z.inj_succ, Z.pow_succ_r by lia.
    rewrite Z.rem_mul_r; [done|lia|]. apply Z.pow_pos_nonneg; lia.
Qed.

Lemma Uint_PutUint (bo : ByteOrder) (n : nat) (v : Z) :
  ByteOrder_Uint bo (ByteOrder_PutUint bo n v) = v mod 256 ^ Z.of_nat n.
Proof.
  destruct bo; unfold ByteOrder_Uint, ByteOrder_PutUint.
  - apply le_uint_bytes.
  - rewrite reverse_involutive. apply le_uint_bytes.
Qed.

Lemma int64_of_bits_range (z : Z) :
  0 ≤ z < 2 ^ 64 → - 2 ^ 63 ≤ int64_of_bits z < 2 ^ 63.
Proof.
  intros Hz. unfold int64_of_bits, int_of_uint64.
  destruct (z <? 2 ^ 63) eqn:Hlt; [apply Z.ltb_lt in Hlt|apply Z.ltb_ge in Hlt];
    lia.
Qed.

Lemma int64_of_bits_int64_bits (z : Z) :
  - 2 ^ 63 ≤ z < 2 ^ 63 → int64_of_bits (int64_bits z) = z.
Proof.
  intros Hz. unfold int64_of_bits, int_of_uint64, int64_bits.
  destruct (Z.lt_ge_cases z 0) as [Hneg|Hpos].
  - replace (z mod 2 ^ 64) with (z + 2 ^ 64).
    + destruct (z + 2 ^ 64 <? 2 ^ 63) eqn:Hlt;
        [apply Z.ltb_lt in Hlt|]; lia.
    + apply Z.mod_unique with (q := -1); lia.
  - rewrite Z.mod_small by lia.
    destruct (z <? 2 ^ 63) eqn:Hlt; [done|apply Z.ltb_ge in Hlt; lia].
Qed.

(** ** [parseTimespec] *)

Lemma time_Unix_normal (sec nsec : Z) :
  0 ≤ nsec < 1000000000 → time_Unix sec nsec = mkTime sec nsec.
Proof.
  intros Hn. unfold time_Unix.
  destruct (nsec <? 0) eqn:H1; [apply Z.ltb_lt in H1; lia|].
  destruct (1000000000 <=? nsec) eqn:H2; [apply Z.leb_le in H2; lia|].
  done.
Qed.

Lemma time_Unix_nsec_range (sec nsec : Z) :
  0 ≤ t_nsec (time_Unix sec nsec) < 1000000000.
Proof.
  unfold time_Unix.
  destruct (nsec <? 0) eqn:H1; destruct (1000000000 <=? nsec) eqn:H2;
    cbn [orb]; rewrite ?Z.ltb_lt, ?Z.ltb_ge, ?Z.leb_le, ?Z.leb_gt in *.
  1-3: pose proof (Z.quot_rem' nsec 1000000000) as Hq;
    destruct (nsec - Z.quot nsec 1000000000 * 1000000000 <? 0) eqn:H3;
    cbn [t_nsec]; rewrite ?Z.ltb_lt, ?Z.ltb_ge in *.
  all: try (pose proof (Z.rem_bound_abs nsec 1000000000); lia).
  all: cbn [t_nsec]; try lia.
Qed.

(** X8: a [timespec] of seconds [sec] and nanoseconds [nsec] below one
    second, laid out in host order, decodes to the time of exactly that
    many seconds and nanoseconds since the epoch; a payload of any size
    but 16 fails.  The [timespec] 0, 0 of a peer without handshake thus
    becomes the Unix epoch, which is not the zero [time.Time]. *)
Theorem parseTimespec_roundtrip (native : ByteOrder) (sec nsec : Z) :
  - 2 ^ 63 ≤ sec < 2 ^ 63 →
  0 ≤ nsec < 1000000000 →
  parseTimespec native
    (ByteOrder_PutUint native 8 (int64_bits sec)
       ++ ByteOrder_PutUint native 8 (int64_bits nsec))
  = Ok (mkTime sec nsec)
  ∧ (parseTimespec native (replicate 16 Byte.x00) = Ok (mkTime 0 0)
     ∧ mkTime 0 0 ≠ zeroTime)
  ∧ ∀ b, length b ≠ 16%nat →
      parseTimespec native b = Err (errTimespecSize (length b)).
Proof.
  intros Hsec Hnsec. split; [|split].
  - unfold parseTimespec.
    rewrite decide_False
      by (rewrite length_app, !length_PutUint; unfold sizeofTimespec; lia).
    unfold castTimespec. cbn [ts_Sec ts_Nsec].
    rewrite take_app_length' by (by rewrite length_PutUint).
    rewrite drop_app_length' by (by rewrite length_PutUint).
    rewrite take_ge by (rewrite length_PutUint; lia).
    rewrite !Uint_PutUint.
    change (256 ^ Z.of_nat 8) with (2 ^ 64).
    rewrite !(Z.mod_small (int64_bits _))
      by (unfold int64_bits; apply Z.mod_pos_bound; lia).
    rewrite !int64_of_bits_int64_bits by lia.
    by rewrite time_Unix_normal.
  - split; [by destruct native|discriminate].
  - intros b Hb. unfold parseTimespec. by rewrite decide_True.
Qed.

Lemma parseTimespec_roundtrip_witness :
  parseTimespec LittleEndian
    (ByteOrder_PutUint LittleEndian 8 (int64_bits 1540000000)
       ++ ByteOrder_PutUint LittleEndian 8 (int64_bits 999999999))
  = Ok (mkTime 1540000000 999999999)
  ∧ (parseTimespec LittleEndian (replicate 16 Byte.x00) = Ok (mkTime 0 0)
     ∧ mkTime 0 0 ≠ zeroTime)
  ∧ ∀ b, length b ≠ 16%nat →
      parseTimespec LittleEndian b = Err (errTimespecSize (length b)).
Proof.
  apply (parseTimespec_roundtrip LittleEndian 1540000000 999999999); lia.
Defined.

(** ** Ranges of the decoded values *)

Lemma foldM_invariant {A S : Type} (f : S → A → result S) (P : S → Prop)
    (Q : A → Prop) (l : list A) :
  (∀ s a s', Q a → P s → f s a = Ok s' → P s') →
  Forall Q l →
  ∀ s s', P s → foldM f s l = Ok s' → P s'.
Proof.
  intros Hstep HQ. induction HQ as [|a l Ha HQ IH]; intros s s' Hs.
  - by intros <-%Ok_inj.
  - cbn [foldM]. destruct (f s a) as [s1|e] eqn:Hf; [|done].
    rewrite bind_Ok. apply IH. by eapply Hstep.
Qed.

Lemma Forall_True {A : Type} (l : list A) : Forall (λ _, True) l.
Proof. by apply Forall_forall. Qed.

Lemma ad_Uint_range (native : ByteOrder) (w : nat) (a : Attribute) (v : Z) :
  ad_Uint native w a = Ok v → 0 ≤ v < 256 ^ Z.of_nat w.
Proof.
  unfold ad_Uint. case_decide as Hw; [|done].
  intros <-%Ok_inj. rewrite <- Hw. apply Uint_range.
Qed.

Lemma parseSockaddr_port_range (native : ByteOrder) (b : list byte)
    (e : UDPAddr) :
  parseSockaddr native b = Ok e → 0 ≤ udp_Port e < 65536.
Proof.
  assert (0 ≤ ByteOrder_Uint native (take 2 (drop 2 b)) < 65536) as Hport.
  { pose proof (Uint_range native (take 2 (drop 2 b))) as Hr.
    assert (length (take 2 (drop 2 b)) ≤ 2)%nat as Hl
      by (rewrite length_take; lia).
    assert (256 ^ Z.of_nat (length (take 2 (drop 2 b))) ≤ 256 ^ 2)
      by (apply Z.pow_le_mono_r; lia).
    lia. }
  unfold parseSockaddr. repeat case_decide; [| |done];
    by intros <-%Ok_inj.
Qed.

Lemma int_of_uint64_range (z : Z) :
  0 ≤ z < 2 ^ 64 → - 2 ^ 63 ≤ int_of_uint64 z < 2 ^ 63.
Proof. apply int64_of_bits_range. Qed.

Lemma parseTimespec_nsec_range (native : ByteOrder) (b : list byte)
    (t : Time) :
  parseTimespec native b = Ok t → 0 ≤ t_nsec t < 1000000000.
Proof.
  unfold parseTimespec. case_decide; [done|].
  intros <-%Ok_inj. apply time_Unix_nsec_range.
Qed.

Lemma zeroPeer_in_range : peer_in_range zeroPeer.
Proof.
  unfold peer_in_range. cbn. split; [exists 0; lia|].
  repeat split; try lia; try done.
Qed.

Lemma parsePeer_attr_in_range (native : ByteOrder) (p p' : Peer)
    (a : Attribute) :
  peer_in_range p → parsePeer_attr native p a = Ok p' → peer_in_range p'.
Proof.
  intros (Hka & Hrx & Htx & Hns & Hep). unfold parsePeer_attr.
  repeat case_decide; intros Hp; inv_bind Hp; apply Ok_inj in Hp as <-;
    (split; [|split; [|split; [|split]]]); cbn;
    try done;
    try (eexists; split;
         [eapply (ad_Uint_range native 2); eassumption|done]);
    try (apply int_of_uint64_range;
         eapply (ad_Uint_range native 8); eassumption);
    try (eapply parseTimespec_nsec_range; eassumption).
  intros e' [= <-]. by eapply parseSockaddr_port_range.
Qed.

Lemma foldM_snoc_traverse {A B : Type} (f : A → result B) (l : list A) :
  ∀ acc,
    foldM (λ bs a, b ← f a; Ok (bs ++ [b])) acc l
    = bs ← traverse f l; Ok (acc ++ bs).
Proof.
  induction l as [|a l IH]; intros acc.
  - cbn. by rewrite app_nil_r.
  - cbn [foldM traverse]. destruct (f a) as [b|e]; [|done].
    rewrite !bind_Ok, IH.
    destruct (traverse f l) as [bs|e]; [|done].
    rewrite !bind_Ok. by rewrite <- app_assoc.
Qed.

Lemma traverse_Forall2 {A B : Type} (f : A → result B) (l : list A)
    (bs : list B) :
  traverse f l = Ok bs ↔ Forall2 (λ a b, f a = Ok b) l bs.
Proof.
  revert bs. induction l as [|a l IH]; intros bs.
  - cbn. split.
    + intros <-%Ok_inj. constructor.
    + intros H. by inversion H.
  - split.
    + intros H. apply traverse_cons_inv in H as (b & bs' & Hb & Hbs & ->).
      constructor; [done|]. by apply IH.
    + intros H. inversion H as [|? b ? bs' Hb Hbs]; subst.
      apply IH in Hbs. cbn [traverse]. by rewrite Hb, bind_Ok, Hbs.
Qed.

Lemma parsePeers_traverse (native : ByteOrder) (b : list byte) :
  parsePeers native b
  = els ← UnmarshalAttributes native b; traverse (parsePeer native) els.
Proof.
  unfold parsePeers. destruct (UnmarshalAttributes native b) as [els|e];
    [|done].
  rewrite !bind_Ok, foldM_snoc_traverse.
  by destruct (traverse (parsePeer native) els).
Qed.

Lemma parseAllowedIPs_traverse (native : ByteOrder) (b : list byte) :
  parseAllowedIPs native b
  = els ← UnmarshalAttributes native b; traverse (parseAllowedIP native) els.
Proof.
  unfold parseAllowedIPs.
  destruct (UnmarshalAttributes native b) as [els|e]; [|done].
  rewrite !bind_Ok, foldM_snoc_traverse.
  by destruct (traverse (parseAllowedIP native) els).
Qed.

(** X9: the peers of a peer list are decoded one per array element, in
    the order of the elements and each from its own element alone: the
    list decodes to [ps] exactly when element [i] decodes to peer [i],
    for every [i].  The same holds of the networks of an allowed-IP
    list. *)
Theorem nested_arrays_elementwise (native : ByteOrder) (b : list byte)
    (els : list Attribute) :
  UnmarshalAttributes native b = Ok els →
  (∀ ps, parsePeers native b = Ok ps
         ↔ Forall2 (λ el p, parsePeer native el = Ok p) els ps)
  ∧ (∀ ipns, parseAllowedIPs native b = Ok ipns
             ↔ Forall2 (λ el ipn, parseAllowedIP native el = Ok ipn)
                 els ipns).
Proof.
  intros Hb. split.
  - intros ps. rewrite parsePeers_traverse, Hb, bind_Ok.
    apply traverse_Forall2.
  - intros ipns. rewrite parseAllowedIPs_traverse, Hb, bind_Ok.
    apply traverse_Forall2.
Qed.

Lemma nested_arrays_elementwise_witness :
  (∀ ps, parsePeers LittleEndian peers_with_unknown = Ok ps
         ↔ Forall2 (λ el p, parsePeer LittleEndian el = Ok p)
             [mkAttribute 0 (drop 4 peers_with_unknown)] ps)
  ∧ (∀ ipns, parseAllowedIPs LittleEndian peers_with_unknown = Ok ipns
             ↔ Forall2 (λ el ipn, parseAllowedIP LittleEndian el = Ok ipn)
                 [mkAttribute 0 (drop 4 peers_with_unknown)] ipns).
Proof.
  apply (nested_arrays_elementwise LittleEndian peers_with_unknown).
  reflexivity.
Defined.

Lemma parsePeer_in_range (native : ByteOrder) (el : Attribute) (p : Peer) :
  parsePeer native el = Ok p → peer_in_range p.
Proof.
  unfold parsePeer. intros H. inv_bind H.
  eapply (foldM_invariant (parsePeer_attr native) peer_in_range
            (λ _, True)); [|apply Forall_True|apply zeroPeer_in_range|done].
  intros s a' s' _. apply parsePeer_attr_in_range.
Qed.

Lemma parsePeers_in_range (native : ByteOrder) (b : list byte)
    (ps : list Peer) :
  parsePeers native b = Ok ps → Forall peer_in_range ps.
Proof.
  rewrite parsePeers_traverse. intros H. inv_bind H.
  apply traverse_Forall2 in H.
  apply Forall_forall. intros p Hp.
  apply list_elem_of_lookup in Hp as [i Hi].
  destruct (Forall2_lookup_r _ _ _ _ _ H Hi) as (el & _ & Hel).
  by eapply parsePeer_in_range.
Qed.

Lemma zeroDevice_in_range : device_in_range zeroDevice.
Proof. unfold device_in_range. cbn. repeat split; try lia. constructor. Qed.

Lemma parseDevice_attr_in_range (native : ByteOrder) (d d' : Device)
    (a : Attribute) :
  device_in_range d → parseDevice_attr native d a = Ok d' →
  device_in_range d'.
Proof.
  intros (Hport & Hmark & Hpeers). unfold parseDevice_attr.
  repeat case_decide; intros Hd; inv_bind Hd; apply Ok_inj in Hd as <-;
    (split; [|split]); cbn; try done.
  - by apply (ad_Uint_range native 2 a).
  - by apply (ad_Uint_range native 4 a).
  - by eapply parsePeers_in_range.
Qed.

Lemma parseDeviceLoop_in_range (native : ByteOrder) (m : Message)
    (d : Device) :
  parseDeviceLoop native m = Ok d → device_in_range d.
Proof.
  unfold parseDeviceLoop. intros H. inv_bind H.
  eapply (foldM_invariant (parseDevice_attr native) device_in_range
            (λ _, True)); [|apply Forall_True|apply zeroDevice_in_range|done].
  intros s a' s' _. apply parseDevice_attr_in_range.
Qed.

Lemma absorb_in_range (dps : list Peer) (tp : Peer) :
  peer_in_range tp → peer_in_range (absorb dps tp).
Proof. by destruct tp. Qed.

Lemma mergeDevices_in_range (target d dev : Device) :
  device_in_range target → device_in_range d →
  mergeDevices target d = Ok dev → device_in_range dev.
Proof.
  intros (Hport & Hmark & Hpeers) (_ & _ & Hdpeers).
  rewrite mergeDevices_spec. intros <-%Ok_inj.
  split; [done|]. split; [done|]. cbn [d_Peers set_d_Peers].
  apply Forall_app. split.
  - apply Forall_fmap. eapply Forall_impl; [done|].
    intros tp. apply absorb_in_range.
  - destruct (d_Peers target); [constructor|].
    apply Forall_forall. intros q Hq.
    apply newPeers_sound in Hq as [Hq _].
    by eapply Forall_forall in Hdpeers.
Qed.

Lemma parseDevice_loop_in_range (native : ByteOrder) (msgs : list Message) :
  ∀ (i : nat) (first dev : Device),
    device_in_range first →
    parseDevice_loop native i first msgs = Ok dev →
    device_in_range dev.
Proof.
  induction msgs as [|m rest IH]; intros i first dev Hfirst.
  - by intros <-%Ok_inj.
  - cbn [parseDevice_loop]. intros H.
    destruct (parseDeviceLoop native m) as [d|e] eqn:Hd; [|done].
    rewrite bind_Ok in H. apply parseDeviceLoop_in_range in Hd.
    destruct (decide (i = 0%nat)); [exact (IH (S i) d dev Hd H)|].
    destruct (mergeDevices first d) as [first'|e] eqn:Hmerge; [|done].
    rewrite bind_Ok in H. apply (IH (S i) first' dev); [|done].
    exact (mergeDevices_in_range first d first' Hfirst Hd Hmerge).
Qed.

(** X10: every Device that [parseDevice] returns has a listen port within
    16 bits and a firewall mark within 32 bits, and each of its peers has
    a keepalive of whole seconds, at most 65535, receive and transmit
    counters within [int] (a counter of 2^63 or more wraps to a negative
    number), handshake nanoseconds below one second and an endpoint port
    within 16 bits. *)
Theorem parseDevice_in_range (native : ByteOrder) (msgs : list Message)
    (dev : Device) :
  parseDevice native msgs = Ok dev → device_in_range dev.
Proof.
  unfold parseDevice. apply parseDevice_loop_in_range.
  apply zeroDevice_in_range.
Qed.

Lemma parseDevice_in_range_witness :
  device_in_range
    (device_of "wg0"
       [peer_of keyA [net_10_0_0_0_8; net_10_0_0_1_32];
        peer_of keyB [];
        peer_of keyC [net_192_168_0_0_16]]).
Proof.
  apply (parseDevice_in_range LittleEndian [dump_first; dump_continuation]).
  unfold parseDevice. cbn [parseDevice_loop].
  replace (parseDeviceLoop LittleEndian dump_first)
    with (Ok dump_first_device) by (vm_compute; reflexivity).
  replace (parseDeviceLoop LittleEndian dump_continuation)
    with (Ok dump_continuation_device) by (vm_compute; reflexivity).
  rewrite !bind_Ok, decide_True, decide_False by done.
  rewrite mergeDevices_eval. vm_compute. reflexivity.
Defined.

(** ** Attributes that a record does not carry *)

Lemma parsePeer_attr_frame (native : ByteOrder) (p p' : Peer)
    (a : Attribute) :
  parsePeer_attr native p a = Ok p' →
  (a_Type a ≠ PeerAPublicKey → p_PublicKey p' = p_PublicKey p)
  ∧ (a_Type a ≠ PeerAPresharedKey → p_PresharedKey p' = p_PresharedKey p)
  ∧ (a_Type a ≠ PeerAEndpoint → p_Endpoint p' = p_Endpoint p)
  ∧ (a_Type a ≠ PeerAPersistentKeepaliveInterval →
       p_PersistentKeepaliveInterval p' = p_PersistentKeepaliveInterval p)
  ∧ (a_Type a ≠ PeerALastHandshakeTime →
       p_LastHandshakeTime p' = p_LastHandshakeTime p)
  ∧ (a_Type a ≠ PeerARxBytes → p_ReceiveBytes p' = p_ReceiveBytes p)
  ∧ (a_Type a ≠ PeerATxBytes → p_TransmitBytes p' = p_TransmitBytes p)
  ∧ (a_Type a ≠ PeerAAllowedips → p_AllowedIPs p' = p_AllowedIPs p).
Proof.
  unfold parsePeer_attr. switch_cases Hp; apply Ok_inj in Hp as <-;
    repeat split; intros Ht; cbn; done.
Qed.

Lemma parsePeer_field_kept (native : ByteOrder) {F : Type}
    (field : Peer → F) (t : Z) (attrs : list Attribute) (p : Peer) :
  (∀ s a s', a_Type a ≠ t → parsePeer_attr native s a = Ok s' →
             field s' = field s) →
  absent t attrs →
  foldM (parsePeer_attr native) zeroPeer attrs = Ok p →
  field p = field zeroPeer.
Proof.
  intros Hstep Habs Hp.
  apply (foldM_invariant (parsePeer_attr native)
           (λ s, field s = field zeroPeer) (λ a, a_Type a ≠ t) attrs)
    with (s := zeroPeer); [|done|done|done].
  intros s a s' Ha Hs Hsa. rewrite <- Hs. by eapply Hstep.
Qed.

(** X11: a peer record that carries no attribute of a kind leaves the
    field of that kind at its zero value, without error: no public key
    attribute gives the all-zero key, no endpoint attribute a nil
    endpoint, no handshake attribute the zero time, no allowed-IP
    attribute an empty list, and so on for each field. *)
Theorem parsePeer_absent_attributes (native : ByteOrder) (el : Attribute)
    (attrs : list Attribute) (p : Peer) :
  UnmarshalAttributes native (a_Data el) = Ok attrs →
  parsePeer native el = Ok p →
  (absent PeerAPublicKey attrs → p_PublicKey p = zeroKey)
  ∧ (absent PeerAPresharedKey attrs → p_PresharedKey p = zeroKey)
  ∧ (absent PeerAEndpoint attrs → p_Endpoint p = None)
  ∧ (absent PeerAPersistentKeepaliveInterval attrs →
       p_PersistentKeepaliveInterval p = 0)
  ∧ (absent PeerALastHandshakeTime attrs → p_LastHandshakeTime p = zeroTime)
  ∧ (absent PeerARxBytes attrs → p_ReceiveBytes p = 0)
  ∧ (absent PeerATxBytes attrs → p_TransmitBytes p = 0)
  ∧ (absent PeerAAllowedips attrs → p_AllowedIPs p = []).
Proof.
  intros Hel. unfold parsePeer, NewAttributeDecoder.
  rewrite Hel, bind_Ok. intros Hp.
  repeat split; intros Habs.
  - apply (parsePeer_field_kept native p_PublicKey PeerAPublicKey attrs p);
      [|done|done].
    intros s a s' Ha Hs. by apply (parsePeer_attr_frame native s s' a Hs).
  - apply (parsePeer_field_kept native p_PresharedKey PeerAPresharedKey attrs p);
      [|done|done].
    intros s a s' Ha Hs. by apply (parsePeer_attr_frame native s s' a Hs).
  - apply (parsePeer_field_kept native p_Endpoint PeerAEndpoint attrs p);
      [|done|done].
    intros s a s' Ha Hs. by apply (parsePeer_attr_frame native s s' a Hs).
  - apply (parsePeer_field_kept native p_PersistentKeepaliveInterval PeerAPersistentKeepaliveInterval attrs p);
      [|done|done].
    intros s a s' Ha Hs. by apply (parsePeer_attr_frame native s s' a Hs).
  - apply (parsePeer_field_kept native p_LastHandshakeTime PeerALastHandshakeTime attrs p);
      [|done|done].
    intros s a s' Ha Hs. by apply (parsePeer_attr_frame native s s' a Hs).
  - apply (parsePeer_field_kept native p_ReceiveBytes PeerARxBytes attrs p);
      [|done|done].
    intros s a s' Ha Hs. by apply (parsePeer_attr_frame native s s' a Hs).
  - apply (parsePeer_field_kept native p_TransmitBytes PeerATxBytes attrs p);
      [|done|done].
    intros s a s' Ha Hs. by apply (parsePeer_attr_frame native s s' a Hs).
  - apply (parsePeer_field_kept native p_AllowedIPs PeerAAllowedips attrs p);
      [|done|done].
    intros s a s' Ha Hs. by apply (parsePeer_attr_frame native s s' a Hs).
Qed.

Lemma parsePeer_absent_attributes_witness :
  (absent PeerAPublicKey
     [mkAttribute PeerAPersistentKeepaliveInterval (bytes [25; 0]);
      mkAttribute PeerARxBytes (bytes [0; 16; 0; 0; 0; 0; 0; 0])] →
   p_PublicKey
     (set_p_ReceiveBytes
        (set_p_PersistentKeepaliveInterval zeroPeer (25 * 1000000000)) 4096)
   = zeroKey)
  ∧ p_Endpoint
      (set_p_ReceiveBytes
         (set_p_PersistentKeepaliveInterval zeroPeer (25 * 1000000000)) 4096)
    = None.
Proof.
  destruct (parsePeer_absent_attributes LittleEndian peer_record_sample
              [mkAttribute PeerAPersistentKeepaliveInterval (bytes [25; 0]);
               mkAttribute PeerARxBytes (bytes [0; 16; 0; 0; 0; 0; 0; 0])]
              (set_p_ReceiveBytes
                 (set_p_PersistentKeepaliveInterval zeroPeer
                    (25 * 1000000000)) 4096))
    as (Hkey & _ & Hep & _); [reflexivity|reflexivity|].
  split; [exact Hkey|]. apply Hep.
  repeat constructor; discriminate.
Defined.

(** ** The records of an allowed-IP list *)

Lemma parseAllowedIP_attr_family (native : ByteOrder) (st : allowedipState)
    (data : list byte) :
  parseAllowedIP_attr native st (mkAttribute AllowedipAFamily data)
  = v ← ad_Uint16 native (mkAttribute AllowedipAFamily data);
    Ok (mkAllowedipState (st_ipn st) (st_mask st) v).
Proof. reflexivity. Qed.

Lemma parseAllowedIP_attr_ipaddr (native : ByteOrder) (st : allowedipState)
    (data : list byte) :
  parseAllowedIP_attr native st (mkAttribute AllowedipAIpaddr data)
  = ip ← parseAddr data;
    Ok (mkAllowedipState (mkIPNet ip (ipn_Mask (st_ipn st)))
          (st_mask st) (st_family st)).
Proof. reflexivity. Qed.

Lemma parseAllowedIP_attr_cidr (native : ByteOrder) (st : allowedipState)
    (data : list byte) :
  parseAllowedIP_attr native st (mkAttribute AllowedipACidrMask data)
  = v ← ad_Uint8 native (mkAttribute AllowedipACidrMask data);
    Ok (mkAllowedipState (st_ipn st) v (st_family st)).
Proof. reflexivity. Qed.

Lemma parsePeer_attr_allowedips (native : ByteOrder) (p : Peer)
    (data : list byte) :
  parsePeer_attr native p (mkAttribute PeerAAllowedips data)
  = ipns ← parseAllowedIPs native data; Ok (set_p_AllowedIPs p ipns).
Proof. reflexivity. Qed.

Lemma parseDevice_attr_peers (native : ByteOrder) (d : Device)
    (data : list byte) :
  parseDevice_attr native d (mkAttribute DeviceAPeers data)
  = peers ← parsePeers native data; Ok (set_d_Peers d peers).
Proof. reflexivity. Qed.

Lemma CIDRMask_out_of_range (ones bits : Z) : bits < ones → CIDRMask ones bits = [].
Proof.
  intros H. unfold CIDRMask. destruct (negb _); [done|].
  destruct (ones <? 0); [done|].
  by rewrite (proj2 (Z.ltb_lt bits ones) H).
Qed.

Lemma length_mask_bytes (l : nat) : ∀ n, length (mask_bytes l n) = l.
Proof.
  induction l as [|l IH]; intros n; [done|].
  cbn [mask_bytes]. destruct (8 <=? n); cbn [length]; by rewrite IH.
Qed.

Lemma CIDRMask_length (ones bits : Z) :
  bits = 32 ∨ bits = 128 → 0 ≤ ones ≤ bits →
  length (CIDRMask ones bits) = Z.to_nat (bits / 8).
Proof.
  intros Hbits Hones. unfold CIDRMask.
  replace (negb _) with false by (by destruct Hbits as [-> | ->]).
  replace (ones <? 0) with false by (symmetry; apply Z.ltb_ge; lia).
  replace (bits <? ones) with false by (symmetry; apply Z.ltb_ge; lia).
  apply length_mask_bytes.
Qed.

(** X12: an allowed-IP record of a family, an address of 4 or 16 bytes and
    a prefix length decodes, without error, to the network of that
    address; its mask has the family's size (4 bytes for [AF_INET], 16
    for [AF_INET6]) when the prefix length fits the family, and is nil
    when the prefix length exceeds it or the family is another one.  The
    sizes of address and family are not compared. *)
Theorem parseAllowedIP_record (native : ByteOrder) (el : Attribute)
    (family ones : Z) (ip : list byte) :
  UnmarshalAttributes native (a_Data el)
  = Ok [mkAttribute AllowedipAFamily (ByteOrder_PutUint native 2 family);
        mkAttribute AllowedipAIpaddr ip;
        mkAttribute AllowedipACidrMask [byte_of_Z ones]] →
  0 ≤ family < 65536 →
  0 ≤ ones < 256 →
  length ip = 4%nat ∨ length ip = 16%nat →
  ∃ mask,
    parseAllowedIP native el = Ok (mkIPNet ip mask)
    ∧ (family = AF_INET → ones ≤ 32 → length mask = 4%nat)
    ∧ (family = AF_INET → 32 < ones → mask = [])
    ∧ (family = AF_INET6 → ones ≤ 128 → length mask = 16%nat)
    ∧ (family = AF_INET6 → 128 < ones → mask = [])
    ∧ (family ≠ AF_INET → family ≠ AF_INET6 → mask = []).
Proof.
  intros Hel Hf Hones Hip.
  assert (parseAllowedIP native el
          = Ok (if decide (family = AF_INET)
                then mkIPNet ip (CIDRMask ones 32)
                else if decide (family = AF_INET6)
                     then mkIPNet ip (CIDRMask ones 128)
                     else mkIPNet ip [])) as Hparse.
  { unfold parseAllowedIP, NewAttributeDecoder. rewrite Hel, bind_Ok.
    cbn [foldM]. rewrite parseAllowedIP_attr_family.
    unfold ad_Uint16, ad_Uint. cbn [a_Data].
    rewrite decide_True by apply length_PutUint.
    rewrite Uint_PutUint, !bind_Ok.
    change (256 ^ Z.of_nat 2) with 65536. rewrite Z.mod_small by done.
    rewrite parseAllowedIP_attr_ipaddr.
    unfold parseAddr. rewrite decide_True by done. rewrite !bind_Ok.
    rewrite parseAllowedIP_attr_cidr.
    unfold ad_Uint8, ad_Uint. cbn [a_Data length].
    rewrite decide_True by done. rewrite !bind_Ok.
    cbn [st_ipn st_mask st_family ipn_IP].
    assert (ByteOrder_Uint native [byte_of_Z ones] = ones) as ->.
    { destruct native; cbn; rewrite byte_to_of_Z, Z.mod_small by done; lia. }
    by repeat case_decide. }
  rewrite Hparse.
  destruct (decide (family = AF_INET)) as [H4|H4];
    [|destruct (decide (family = AF_INET6)) as [H6|H6]];
    eexists; (split; [reflexivity|]); repeat split; intros;
    first [ by apply CIDRMask_out_of_range
          | by rewrite CIDRMask_length by (first [by left|by right|lia])
          | by (unfold AF_INET, AF_INET6 in *; lia)
          | done ].
Qed.

Lemma parseAllowedIP_record_witness :
  ∃ mask,
    parseAllowedIP LittleEndian
      (mkAttribute 0
         (bytes [6; 0; 1; 0;  2; 0; 0; 0;
                 8; 0; 2; 0;  10; 0; 0; 0;
                 5; 0; 3; 0;  33; 0; 0; 0]))
    = Ok (mkIPNet (bytes [10; 0; 0; 0]) mask)
    ∧ (2 = AF_INET → 33 ≤ 32 → length mask = 4%nat)
    ∧ (2 = AF_INET → 32 < 33 → mask = [])
    ∧ (2 = AF_INET6 → 33 ≤ 128 → length mask = 16%nat)
    ∧ (2 = AF_INET6 → 128 < 33 → mask = [])
    ∧ (2 ≠ AF_INET → 2 ≠ AF_INET6 → mask = []).
Proof.
  apply (parseAllowedIP_record LittleEndian _ 2 33 (bytes [10; 0; 0; 0]));
    [reflexivity|lia|lia|by left].
Defined.

(** ** Errors inside nested records *)

Lemma foldM_error {A S : Type} (f : S → A → result S) (l1 l2 : list A)
    (a : A) :
  (∀ s, ∃ e, f s a = Err e) →
  ∀ s, ∃ e, foldM f s (l1 ++ a :: l2) = Err e.
Proof.
  intros Ha s. rewrite foldM_app.
  destruct (foldM f s l1) as [s'|e]; [|by exists e].
  rewrite bind_Ok. cbn [foldM]. destruct (Ha s') as [e ->]. by exists e.
Qed.

Lemma parseAllowedIPs_bad_address (native : ByteOrder) (b : list byte)
    (els els' : list Attribute) (el : Attribute) (pre post : list Attribute)
    (ip : list byte) :
  UnmarshalAttributes native b = Ok (els ++ el :: els') →
  UnmarshalAttributes native (a_Data el)
  = Ok (pre ++ mkAttribute AllowedipAIpaddr ip :: post) →
  length ip ≠ 4%nat → length ip ≠ 16%nat →
  ∃ e, parseAllowedIPs native b = Err e.
Proof.
  intros Hb Hel H4 H16. unfold parseAllowedIPs. rewrite Hb, bind_Ok.
  apply foldM_error. intros ipns.
  unfold parseAllowedIP, NewAttributeDecoder. rewrite Hel, bind_Ok.
  destruct (foldM_error (parseAllowedIP_attr native) pre post
              (mkAttribute AllowedipAIpaddr ip)) with
    (s := mkAllowedipState (mkIPNet [] []) 0 0) as [e ->].
  - intros st. rewrite parseAllowedIP_attr_ipaddr. unfold parseAddr.
    rewrite decide_False by (unfold IPv4len, IPv6len; lia). by eexists.
  - by exists e.
Qed.

Lemma parsePeers_bad_allowedips (native : ByteOrder) (b : list byte)
    (els els' : list Attribute) (el : Attribute) (pre post : list Attribute)
    (b2 : list byte) (e : error) :
  UnmarshalAttributes native b = Ok (els ++ el :: els') →
  UnmarshalAttributes native (a_Data el)
  = Ok (pre ++ mkAttribute PeerAAllowedips b2 :: post) →
  parseAllowedIPs native b2 = Err e →
  ∃ e', parsePeers native b = Err e'.
Proof.
  intros Hb Hel Hb2. unfold parsePeers. rewrite Hb, bind_Ok.
  apply foldM_error. intros ps.
  unfold parsePeer, NewAttributeDecoder. rewrite Hel, bind_Ok.
  destruct (foldM_error (parsePeer_attr native) pre post
              (mkAttribute PeerAAllowedips b2)) with (s := zeroPeer)
    as [e' ->].
  - intros p. rewrite parsePeer_attr_allowedips, Hb2. by eexists.
  - by exists e'.
Qed.

Lemma parseDeviceLoop_bad_peers (native : ByteOrder) (m : Message)
    (pre post : list Attribute) (b : list byte) (e : error) :
  UnmarshalAttributes native (m_Data m)
  = Ok (pre ++ mkAttribute DeviceAPeers b :: post) →
  parsePeers native b = Err e →
  ∃ e', parseDeviceLoop native m = Err e'.
Proof.
  intros Hm Hb. unfold parseDeviceLoop, NewAttributeDecoder.
  rewrite Hm, bind_Ok. apply foldM_error. intros d.
  rewrite parseDevice_attr_peers, Hb. by eexists.
Qed.

(** X13: a malformed record is never skipped, at any depth: an address
    that is neither 4 nor 16 bytes long makes its allowed-IP list fail, a
    failing allowed-IP list makes the peer list around it fail, and a
    failing peer list makes the device message fail; so one bad address
    fails the whole message. *)
Theorem nested_error_fails_the_message (native : ByteOrder) (m : Message)
    (pre post : list Attribute) (b : list byte)
    (els els' : list Attribute) (el : Attribute)
    (ppre ppost : list Attribute) (b2 : list byte)
    (ips ips' : list Attribute) (rec : Attribute)
    (ipre ipost : list Attribute) (ip : list byte) :
  UnmarshalAttributes native (m_Data m)
  = Ok (pre ++ mkAttribute DeviceAPeers b :: post) →
  UnmarshalAttributes native b = Ok (els ++ el :: els') →
  UnmarshalAttributes native (a_Data el)
  = Ok (ppre ++ mkAttribute PeerAAllowedips b2 :: ppost) →
  UnmarshalAttributes native b2 = Ok (ips ++ rec :: ips') →
  UnmarshalAttributes native (a_Data rec)
  = Ok (ipre ++ mkAttribute AllowedipAIpaddr ip :: ipost) →
  length ip ≠ 4%nat → length ip ≠ 16%nat →
  (∃ e, parseAllowedIPs native b2 = Err e)
  ∧ (∃ e, parsePeers native b = Err e)
  ∧ (∃ e, parseDeviceLoop native m = Err e).
Proof.
  intros Hm Hb Hel Hb2 Hrec H4 H16.
  destruct (parseAllowedIPs_bad_address native b2 ips ips' rec ipre ipost ip)
    as [e2 He2]; try done.
  destruct (parsePeers_bad_allowedips native b els els' el ppre ppost b2 e2)
    as [e1 He1]; try done.
  destruct (parseDeviceLoop_bad_peers native m pre post b e1)
    as [e0 He0]; try done.
  split; [by exists e2|]. split; [by exists e1|by exists e0].
Qed.

Lemma nested_error_fails_the_message_witness :
  (∃ e, parseAllowedIPs LittleEndian allowedips_bad_address = Err e)
  ∧ (∃ e, parsePeers LittleEndian peers_bad_address = Err e)
  ∧ (∃ e, parseDeviceLoop LittleEndian message_bad_address = Err e).
Proof.
  apply (nested_error_fails_the_message LittleEndian message_bad_address
           [] [] peers_bad_address
           [] [] (mkAttribute 0 (drop 4 peers_bad_address))
           [] [] allowedips_bad_address
           [] [] (mkAttribute 0 (drop 4 allowedips_bad_address))
           [] [] (bytes [10; 0; 0]));
    try reflexivity; vm_compute; lia.
Defined.

(** ** More on the merge *)

Lemma absorb_nil (tp : Peer) : absorb [] tp = tp.
Proof. by apply absorb_no_namesake. Qed.

Lemma set_d_Peers_id (d : Device) : set_d_Peers d (d_Peers d) = d.
Proof. by destruct d. Qed.

Lemma mergeDevices_no_peers (target d : Device) :
  d_Peers d = [] → mergeDevices target d = Ok target.
Proof.
  intros Hd. rewrite mergeDevices_spec, Hd.
  replace (absorb [] <$> d_Peers target) with (d_Peers target).
  - destruct (d_Peers target) eqn:Ht; rewrite ?app_nil_r, <- Ht;
      by rewrite set_d_Peers_id.
  - induction (d_Peers target) as [|tp r IH]; [done|].
    cbn. by rewrite absorb_nil, <- IH.
Qed.

Lemma parseDevice_loop_peerless (native : ByteOrder) (rest : list Message) :
  ∀ (i : nat) (first : Device),
    i ≠ 0%nat →
    Forall (λ m', ∃ d, parseDeviceLoop native m' = Ok d ∧ d_Peers d = [])
      rest →
    parseDevice_loop native i first rest = Ok first.
Proof.
  induction rest as [|m rest IH]; intros i first Hi Hrest; [done|].
  apply Forall_cons in Hrest as [(d & Hd & Hpeers) Hrest].
  cbn [parseDevice_loop]. rewrite Hd, bind_Ok, decide_False by done.
  rewrite mergeDevices_no_peers, bind_Ok by done. by apply IH.
Qed.

(** X14: continuation messages that carry no peer change nothing: the
    result of [parseDevice] is then the Device of the first message. *)
Theorem parseDevice_peerless_continuations (native : ByteOrder)
    (m : Message) (rest : list Message) (d0 : Device) :
  parseDeviceLoop native m = Ok d0 →
  Forall (λ m', ∃ d, parseDeviceLoop native m' = Ok d ∧ d_Peers d = [])
    rest →
  parseDevice native (m :: rest) = Ok d0.
Proof.
  intros Hd0 Hrest. unfold parseDevice. cbn [parseDevice_loop].
  rewrite Hd0, bind_Ok, decide_True by done.
  by apply parseDevice_loop_peerless.
Qed.

Lemma parseDevice_peerless_continuations_witness :
  parseDevice LittleEndian
    [dump_first; message_without_unknown; message_with_unknown]
  = Ok dump_first_device.
Proof.
  apply (parseDevice_peerless_continuations LittleEndian).
  - vm_compute. reflexivity.
  - repeat apply Forall_cons_2; [| |apply Forall_nil_2];
      eexists; (split; [vm_compute; reflexivity|reflexivity]).
Defined.

(** X15: a peer of the target keeps its place and every field but the
    allowed IPs, which grow by the allowed IPs of the continuation's
    peers of the same key, in their order; whatever else those peers
    carry (endpoint, keepalive, counters, handshake time) is dropped. *)
Theorem mergeDevices_existing_peer (target d dev : Device) (i : nat)
    (tp : Peer) :
  d_Peers target !! i = Some tp →
  mergeDevices target d = Ok dev →
  d_Peers dev !! i
  = Some (set_p_AllowedIPs tp
            (p_AllowedIPs tp ++ allowedIPsOf (p_PublicKey tp) (d_Peers d))).
Proof.
  intros Hi. rewrite mergeDevices_spec. intros <-%Ok_inj.
  cbn [d_Peers set_d_Peers]. rewrite lookup_app_l.
  - by rewrite list_lookup_fmap, Hi.
  - rewrite length_fmap. by eapply lookup_lt_Some.
Qed.

Lemma mergeDevices_existing_peer_witness :
  d_Peers (device_of "wg0"
             [peer_of keyA [net_10_0_0_0_8; net_10_0_0_1_32];
              peer_of keyB [];
              peer_of keyC [net_192_168_0_0_16]]) !! 0%nat
  = Some (set_p_AllowedIPs (peer_of keyA [net_10_0_0_0_8])
            (p_AllowedIPs (peer_of keyA [net_10_0_0_0_8])
               ++ allowedIPsOf (p_PublicKey (peer_of keyA [net_10_0_0_0_8]))
                    (d_Peers dump_continuation_device))).
Proof.
  apply (mergeDevices_existing_peer dump_first_device
           dump_continuation_device).
  - reflexivity.
  - rewrite mergeDevices_eval. vm_compute. reflexivity.
Defined.

(** ** Requests *)

Lemma marshal_attr_fits (native : ByteOrder) (a : Attribute) :
  Z.of_nat (length (a_Data a)) ≤ 65531 → ∃ rec, marshal_attr native a = Ok rec.
Proof.
  intros Hlen. unfold marshal_attr.
  replace (65535 <? _) with false; [by eexists|].
  symmetry. apply Z.ltb_ge. unfold nlaHeaderLen. lia.
Qed.

Lemma MarshalAttributes_fits (native : ByteOrder) (attrs : list Attribute) :
  Forall (λ a, Z.of_nat (length (a_Data a)) ≤ 65531) attrs →
  ∃ b, MarshalAttributes native attrs = Ok b.
Proof.
  unfold MarshalAttributes. intros Hfit.
  assert (∃ recs, traverse (marshal_attr native) attrs = Ok recs)
    as [recs ->].
  { induction Hfit as [|a attrs Ha _ [recs IH]]; [by eexists|].
    destruct (marshal_attr_fits native a Ha) as [rec Hrec].
    cbn [traverse]. rewrite Hrec, bind_Ok, IH. by eexists. }
  by eexists.
Qed.

(** [execute] once the attributes are framed: one request goes out, and
    the answer comes back with the two errnos mapped. *)
Lemma execute_framed (native : ByteOrder)
    (kernel : list Request → Request → result (list Message))
    (command flags : Z) (attrs : list Attribute) (b : list byte)
    (c : client) :
  MarshalAttributes native attrs = Ok b →
  execute native kernel command flags attrs c
  = (match kernel (c_conn c)
             (mkRequest (mkMessage (mkHeader command GenlVersion) b)
                (c_family c) flags) with
     | Ok msgs => Ok msgs
     | Err e => Err (notExistOr e)
     end,
     mkClient (c_family c)
       (c_conn c ++ [mkRequest (mkMessage (mkHeader command GenlVersion) b)
                       (c_family c) flags])).
Proof.
  intros Hb. unfold execute, Conn_Execute, notExistOr. rewrite Hb.
  destruct (kernel _ _) as [msgs|e]; [done|]. by case_decide.
Qed.

Lemma getDevice_framed (native : ByteOrder)
    (kernel : list Request → Request → result (list Message))
    (attr : Attribute) (b : list byte) (c : client) :
  MarshalAttributes native [attr] = Ok b →
  match execute native kernel CmdGetDevice
          (Z.lor HeaderFlagsRequest HeaderFlagsDump) [attr] c with
  | (Err e, c') => (Err e, c')
  | (Ok msgs, c') => (parseDevice native msgs, c')
  end
  = (deviceOfAnswer native
       (kernel (c_conn c)
          (mkRequest (mkMessage (mkHeader CmdGetDevice GenlVersion) b)
             (c_family c) (Z.lor HeaderFlagsRequest HeaderFlagsDump))),
     mkClient (c_family c)
       (c_conn c
          ++ [mkRequest (mkMessage (mkHeader CmdGetDevice GenlVersion) b)
                (c_family c) (Z.lor HeaderFlagsRequest HeaderFlagsDump)])).
Proof.
  intros Hb. rewrite (execute_framed native kernel _ _ _ b c Hb).
  unfold deviceOfAnswer. by destruct (kernel _ _).
Qed.

(** X16: with a non-zero index, [getDevice] executes exactly one request,
    whatever name is given with it: a dump request of the get-device
    command whose only attribute is the interface index, as 32 bits in
    host order (the index modulo 2^32).  The result is the decode of the
    kernel's answer, or its error with [ENODEV] and [ENOTSUP] turned into
    [os.ErrNotExist]. *)
Theorem getDevice_by_index (native : ByteOrder)
    (kernel : list Request → Request → result (list Message))
    (index : Z) (name : string) (c : client) :
  index ≠ 0 →
  ∃ req,
    getDevice native kernel index name c
    = (deviceOfAnswer native (kernel (c_conn c) req),
       mkClient (c_family c) (c_conn c ++ [req]))
    ∧ req_family req = c_family c
    ∧ req_flags req = Z.lor HeaderFlagsRequest HeaderFlagsDump
    ∧ m_Header (req_msg req) = mkHeader CmdGetDevice GenlVersion
    ∧ ∃ data,
        UnmarshalAttributes native (m_Data (req_msg req))
        = Ok [mkAttribute DeviceAIfindex data]
        ∧ length data = 4%nat
        ∧ ByteOrder_Uint native data = index mod 2 ^ 32.
Proof.
  intros Hindex.
  set (attr := mkAttribute DeviceAIfindex
                 (nlenc_Uint32Bytes native (uint32 index))).
  destruct (MarshalAttributes_fits native [attr]) as [b Hb].
  { repeat constructor. cbn. unfold nlenc_Uint32Bytes.
    rewrite length_PutUint. lia. }
  eexists. split; [|split; [|split; [|split]]].
  - unfold getDevice. rewrite decide_True by done.
    apply (getDevice_framed native kernel attr b c Hb).
  - reflexivity.
  - reflexivity.
  - reflexivity.
  - exists (nlenc_Uint32Bytes native (uint32 index)). split; [|split].
    + cbn [req_msg m_Data]. apply Unmarshal_Marshal; [done|].
      repeat constructor; done.
    + apply length_PutUint.
    + unfold nlenc_Uint32Bytes, uint32. rewrite Uint_PutUint.
      change (256 ^ Z.of_nat 4) with (2 ^ 32). apply Z.mod_mod. lia.
Qed.

Lemma getDevice_by_index_witness :
  ∃ req,
    getDevice LittleEndian kernel_sample_dump 3 "ignored" client0
    = (deviceOfAnswer LittleEndian (kernel_sample_dump (c_conn client0) req),
       mkClient (c_family client0) (c_conn client0 ++ [req]))
    ∧ req_family req = c_family client0
    ∧ req_flags req = Z.lor HeaderFlagsRequest HeaderFlagsDump
    ∧ m_Header (req_msg req) = mkHeader CmdGetDevice GenlVersion
    ∧ ∃ data,
        UnmarshalAttributes LittleEndian (m_Data (req_msg req))
        = Ok [mkAttribute DeviceAIfindex data]
        ∧ length data = 4%nat
        ∧ ByteOrder_Uint LittleEndian data = 3 mod 2 ^ 32.
Proof.
  apply (getDevice_by_index LittleEndian kernel_sample_dump 3 "ignored"
           client0).
  discriminate.
Defined.

(** X17: with index 0 and a name, [getDevice] executes exactly one
    request: a dump request of the get-device command whose only
    attribute is the interface name followed by a NUL byte.  The result
    is the decode of the kernel's answer, or its error with [ENODEV] and
    [ENOTSUP] turned into [os.ErrNotExist]. *)
Theorem getDevice_by_name (native : ByteOrder)
    (kernel : list Request → Request → result (list Message))
    (name : string) (c : client) :
  name ≠ "" →
  Z.of_nat (length (nlenc_Bytes name)) ≤ 65531 →
  ∃ req,
    getDevice native kernel 0 name c
    = (deviceOfAnswer native (kernel (c_conn c) req),
       mkClient (c_family c) (c_conn c ++ [req]))
    ∧ req_family req = c_family c
    ∧ req_flags req = Z.lor HeaderFlagsRequest HeaderFlagsDump
    ∧ m_Header (req_msg req) = mkHeader CmdGetDevice GenlVersion
    ∧ UnmarshalAttributes native (m_Data (req_msg req))
      = Ok [mkAttribute DeviceAIfname
              (String.list_byte_of_string name ++ [Byte.x00])].
Proof.
  intros Hname Hlen.
  set (attr := mkAttribute DeviceAIfname (nlenc_Bytes name)).
  destruct (MarshalAttributes_fits native [attr]) as [b Hb].
  { repeat constructor. done. }
  eexists. split; [|split; [|split; [|split]]].
  - unfold getDevice. rewrite decide_False by (intros H; by apply H).
    rewrite decide_True by done.
    apply (getDevice_framed native kernel attr b c Hb).
  - reflexivity.
  - reflexivity.
  - reflexivity.
  - cbn [req_msg m_Data]. apply Unmarshal_Marshal; [done|].
    repeat constructor; done.
Qed.

Lemma getDevice_by_name_witness :
  ∃ req,
    getDevice LittleEndian kernel_no_device 0 "wg0" client0
    = (deviceOfAnswer LittleEndian (kernel_no_device (c_conn client0) req),
       mkClient (c_family client0) (c_conn client0 ++ [req]))
    ∧ req_family req = c_family client0
    ∧ req_flags req = Z.lor HeaderFlagsRequest HeaderFlagsDump
    ∧ m_Header (req_msg req) = mkHeader CmdGetDevice GenlVersion
    ∧ UnmarshalAttributes LittleEndian (m_Data (req_msg req))
      = Ok [mkAttribute DeviceAIfname
              (String.list_byte_of_string "wg0" ++ [Byte.x00])].
Proof.
  apply (getDevice_by_name LittleEndian kernel_no_device "wg0" client0).
  - discriminate.
  - vm_compute. discriminate.
Defined.

Lemma configAttrs_list (name : string) (cfg : Config) :
  configAttrs name cfg
  = Ok (mkAttribute DeviceAIfname (nlenc_Bytes name)
          :: match cfg_PrivateKey cfg with
             | Some k => [mkAttribute DeviceAPrivateKey (vec_to_list k)]
             | None => []
             end).
Proof. unfold configAttrs. by destruct (cfg_PrivateKey cfg). Qed.

(** X18: [ConfigureDevice] executes exactly one request: an acknowledged
    request of the set-device command whose attributes are the interface
    name and, when the Config has one, the private key.  It succeeds
    exactly when the kernel answers without error, whatever messages the
    answer holds; a kernel error comes back with [ENODEV] and [ENOTSUP]
    turned into [os.ErrNotExist]. *)
Theorem ConfigureDevice_request (native : ByteOrder)
    (kernel : list Request → Request → result (list Message))
    (name : string) (cfg : Config) (c : client) :
  Z.of_nat (length (nlenc_Bytes name)) ≤ 65531 →
  ∃ req,
    ConfigureDevice native kernel name cfg c
    = (match kernel (c_conn c) req with
       | Ok _ => Ok ()
       | Err e => Err (notExistOr e)
       end,
       mkClient (c_family c) (c_conn c ++ [req]))
    ∧ req_family req = c_family c
    ∧ req_flags req = Z.lor HeaderFlagsRequest HeaderFlagsAcknowledge
    ∧ m_Header (req_msg req) = mkHeader CmdSetDevice GenlVersion
    ∧ UnmarshalAttributes native (m_Data (req_msg req))
      = Ok (mkAttribute DeviceAIfname (nlenc_Bytes name)
              :: match cfg_PrivateKey cfg with
                 | Some k => [mkAttribute DeviceAPrivateKey (vec_to_list k)]
                 | None => []
                 end).
Proof.
  intros Hlen. unfold ConfigureDevice. rewrite configAttrs_list.
  set (attrs := mkAttribute DeviceAIfname (nlenc_Bytes name)
                  :: match cfg_PrivateKey cfg with
                     | Some k =>
                       [mkAttribute DeviceAPrivateKey (vec_to_list k)]
                     | None => []
                     end).
  assert (Forall (λ a, 0 ≤ a_Type a < 65536
                       ∧ Z.of_nat (length (a_Data a)) ≤ 65531) attrs)
    as Hattrs.
  { unfold attrs. constructor; [done|].
    destruct (cfg_PrivateKey cfg) as [k|]; repeat constructor; try done.
    cbn. rewrite length_vec_to_list. unfold KeyLen. lia. }
  destruct (MarshalAttributes_fits native attrs) as [b Hb].
  { eapply Forall_impl; [exact Hattrs|]. by intros a [_ Ha]. }
  exists (mkRequest (mkMessage (mkHeader CmdSetDevice GenlVersion) b)
            (c_family c) (Z.lor HeaderFlagsRequest HeaderFlagsAcknowledge)).
  split; [|split; [|split; [|split]]].
  - cbv zeta. rewrite (execute_framed native kernel _ _ _ b c Hb).
    by destruct (kernel _ _).
  - reflexivity.
  - reflexivity.
  - reflexivity.
  - cbn [req_msg m_Data]. apply Unmarshal_Marshal; [done|].
    eapply Forall_impl; [exact Hattrs|]. by intros a [Ha _].
Qed.

Lemma ConfigureDevice_request_witness :
  ∃ req,
    ConfigureDevice LittleEndian kernel_sample_dump "wg0"
      (mkConfig (Some keyA) (Some 51820) None) client0
    = (match kernel_sample_dump (c_conn client0) req with
       | Ok _ => Ok ()
       | Err e => Err (notExistOr e)
       end,
       mkClient (c_family client0) (c_conn client0 ++ [req]))
    ∧ req_family req = c_family client0
    ∧ req_flags req = Z.lor HeaderFlagsRequest HeaderFlagsAcknowledge
    ∧ m_Header (req_msg req) = mkHeader CmdSetDevice GenlVersion
    ∧ UnmarshalAttributes LittleEndian (m_Data (req_msg req))
      = Ok (mkAttribute DeviceAIfname (nlenc_Bytes "wg0")
              :: match cfg_PrivateKey (mkConfig (Some keyA) (Some 51820) None)
                 with
                 | Some k => [mkAttribute DeviceAPrivateKey (vec_to_list k)]
                 | None => []
                 end).
Proof.
  apply (ConfigureDevice_request LittleEndian kernel_sample_dump "wg0"
           (mkConfig (Some keyA) (Some 51820) None) client0).
  vm_compute. discriminate.
Defined.

(** ** Listing devices *)

Lemma client_eta (c : client) : c = mkClient (c_family c) (c_conn c ++ []).
Proof. destruct c. cbn. by rewrite app_nil_r. Qed.

(** [getDevice] either fails before it reaches the connection, or
    executes one get-device request and reads its answer. *)
Lemma getDevice_cases (native : ByteOrder)
    (kernel : list Request → Request → result (list Message))
    (index : Z) (name : string) (c : client) :
  (∃ e, getDevice native kernel index name c = (Err e, c))
  ∨ (∃ req, get_request (c_family c) req
       ∧ getDevice native kernel index name c
         = (deviceOfAnswer native (kernel (c_conn c) req),
            mkClient (c_family c) (c_conn c ++ [req]))).
Proof.
  unfold getDevice.
  destruct (if decide (index ≠ 0)
            then Some (mkAttribute DeviceAIfindex
                         (nlenc_Uint32Bytes native (uint32 index)))
            else if decide (name ≠ "")
                 then Some (mkAttribute DeviceAIfname (nlenc_Bytes name))
                 else None) as [attr|]; [|left; by eexists].
  cbv zeta.
  destruct (MarshalAttributes native [attr]) as [b|e] eqn:Hb.
  - right.
    exists (mkRequest (mkMessage (mkHeader CmdGetDevice GenlVersion) b)
              (c_family c) (Z.lor HeaderFlagsRequest HeaderFlagsDump)).
    split; [done|]. apply (getDevice_framed native kernel attr b c Hb).
  - left. exists e. unfold execute. by rewrite Hb.
Qed.

Lemma Devices_loop_trace (native : ByteOrder)
    (kernel : list Request → Request → result (list Message))
    (ifis : list Interface) :
  ∀ (ds : list Device) (c : client),
  ∃ reqs : list Request,
    (Devices_loop native kernel ifis ds c).2
    = mkClient (c_family c) (c_conn c ++ reqs)
    ∧ (length reqs ≤ length ifis)%nat
    ∧ Forall (get_request (c_family c)) reqs
    ∧ match (Devices_loop native kernel ifis ds c).1 with
      | Ok ds' =>
        ∃ new : list Device,
          ds' = ds ++ new
          ∧ (length new ≤ length reqs)%nat
          ∧ Forall (decoded_answer native kernel (c_family c)) new
      | Err e => os_IsNotExist e = false
      end.
Proof.
  induction ifis as [|ifi ifis IH]; intros ds c.
  { exists []. cbn. split; [apply client_eta|].
    split; [done|]. split; [done|].
    exists []. by rewrite app_nil_r. }
  cbn [Devices_loop].
  destruct (getDevice_cases native kernel (ifi_Index ifi) (ifi_Name ifi) c)
    as [[e ->]|(req & Hreq & ->)].
  - destruct (os_IsNotExist e) eqn:He.
    + destruct (IH ds c) as (reqs & Hc & Hlen & Hreqs & Hres).
      exists reqs. split; [done|]. split; [cbn; lia|]. by split.
    + exists []. cbn. split; [apply client_eta|].
      split; [lia|]. by split.
  - set (c1 := mkClient (c_family c) (c_conn c ++ [req])).
    destruct (deviceOfAnswer native (kernel (c_conn c) req))
      as [d|e] eqn:Hans.
    + destruct (IH (ds ++ [d]) c1) as (reqs & Hc & Hlen & Hreqs & Hres).
      exists (req :: reqs). split; [|split; [|split]].
      * rewrite Hc. cbn. by rewrite <- app_assoc.
      * cbn. lia.
      * by constructor.
      * destruct (Devices_loop _ _ _ _ _).1 as [ds'|e']; [|done].
        destruct Hres as (new & -> & Hnew & Hdec).
        exists (d :: new). split; [by rewrite <- app_assoc|].
        split; [cbn; lia|]. constructor; [|done].
        unfold deviceOfAnswer in Hans.
        destruct (kernel (c_conn c) req) as [msgs|] eqn:Hk; [|done].
        by exists (c_conn c), req, msgs.
    + destruct (os_IsNotExist e) eqn:He.
      * destruct (IH ds c1) as (reqs & Hc & Hlen & Hreqs & Hres).
        exists (req :: reqs). split; [|split; [|split]].
        -- rewrite Hc. cbn. by rewrite <- app_assoc.
        -- cbn. lia.
        -- by constructor.
        -- destruct (Devices_loop _ _ _ _ _).1 as [ds'|e']; [|done].
           destruct Hres as (new & -> & Hnew & Hdec).
           exists new. split; [done|]. split; [cbn; lia|done].
      * exists [req]. cbn. split; [done|]. split; [lia|].
        split; [by constructor|done].
Qed.

Lemma MarshalAttributes_too_long (native : ByteOrder) (a : Attribute) :
  ¬ Z.of_nat (length (a_Data a)) ≤ 65531 →
  MarshalAttributes native [a] = Err errEncode.
Proof.
  intros Hlen. unfold MarshalAttributes. cbn [traverse].
  unfold marshal_attr.
  replace (65535 <? _) with true; [done|].
  symmetry. apply Z.ltb_lt. unfold nlaHeaderLen. lia.
Qed.

(** [getDevice] on an addressable interface executes the request for
    that interface and reads its answer. *)
Lemma getDevice_addressable (native : ByteOrder)
    (kernel : list Request → Request → result (list Message))
    (ifi : Interface) (c : client) :
  addressable ifi →
  ∃ req,
    request_for native (c_family c) ifi req
    ∧ getDevice native kernel (ifi_Index ifi) (ifi_Name ifi) c
      = (deviceOfAnswer native (kernel (c_conn c) req),
         mkClient (c_family c) (c_conn c ++ [req])).
Proof.
  intros Hifi. destruct (decide (ifi_Index ifi ≠ 0)) as [Hindex|Hindex].
  - set (attr := mkAttribute DeviceAIfindex
                   (nlenc_Uint32Bytes native (uint32 (ifi_Index ifi)))).
    destruct (MarshalAttributes_fits native [attr]) as [b Hb].
    { repeat constructor. cbn. unfold nlenc_Uint32Bytes.
      rewrite length_PutUint. lia. }
    exists (mkRequest (mkMessage (mkHeader CmdGetDevice GenlVersion) b)
              (c_family c) (Z.lor HeaderFlagsRequest HeaderFlagsDump)).
    split; [split; [done|left; split; [done|]]|].
    + exists (nlenc_Uint32Bytes native (uint32 (ifi_Index ifi))).
      split; [|split].
      * cbn [req_msg m_Data]. apply Unmarshal_Marshal; [done|].
        repeat constructor; done.
      * apply length_PutUint.
      * unfold nlenc_Uint32Bytes, uint32. rewrite Uint_PutUint.
        change (256 ^ Z.of_nat 4) with (2 ^ 32). apply Z.mod_mod. lia.
    + unfold getDevice. rewrite decide_True by done.
      apply (getDevice_framed native kernel attr b c Hb).
  - destruct Hifi as [Hifi|[Hname Hlen]]; [done|].
    assert (ifi_Index ifi = 0) as Hzero
      by (destruct (decide (ifi_Index ifi = 0)); [done|by destruct Hindex]).
    set (attr := mkAttribute DeviceAIfname (nlenc_Bytes (ifi_Name ifi))).
    destruct (MarshalAttributes_fits native [attr]) as [b Hb].
    { by repeat constructor. }
    exists (mkRequest (mkMessage (mkHeader CmdGetDevice GenlVersion) b)
              (c_family c) (Z.lor HeaderFlagsRequest HeaderFlagsDump)).
    split; [split; [done|right; split; [done|]]|].
    + cbn [req_msg m_Data]. apply (Unmarshal_Marshal native [attr]); [done|].
      repeat constructor; done.
    + unfold getDevice. rewrite decide_False by done.
      rewrite decide_True by done.
      apply (getDevice_framed native kernel attr b c Hb).
Qed.

(** On any other interface it fails before it reaches the connection. *)
Lemma getDevice_not_addressable (native : ByteOrder)
    (kernel : list Request → Request → result (list Message))
    (ifi : Interface) (c : client) :
  ¬ addressable ifi →
  ∃ e, getDevice native kernel (ifi_Index ifi) (ifi_Name ifi) c = (Err e, c).
Proof.
  intros Hifi. unfold getDevice.
  destruct (decide (ifi_Index ifi ≠ 0)) as [Hindex|Hindex];
    [destruct Hifi; by left|].
  destruct (decide (ifi_Name ifi ≠ "")) as [Hname|Hname]; [|by eexists].
  cbv zeta. unfold execute. rewrite MarshalAttributes_too_long.
  - by eexists.
  - cbn [a_Data]. intros Hlen. apply Hifi. by right.
Qed.

(** The requests of [Devices]' loop: one for each addressable interface
    among those it went through, in their order. *)
Lemma Devices_loop_asked (native : ByteOrder)
    (kernel : list Request → Request → result (list Message))
    (ifis : list Interface) :
  ∀ (ds : list Device) (c : client),
  ∃ (n : nat) (reqs : list Request),
    (n ≤ length ifis)%nat
    ∧ (Devices_loop native kernel ifis ds c).2
      = mkClient (c_family c) (c_conn c ++ reqs)
    ∧ Forall2 (request_for native (c_family c))
        (filter addressable (take n ifis)) reqs
    ∧ ∀ ds', (Devices_loop native kernel ifis ds c).1 = Ok ds' →
             n = length ifis.
Proof.
  induction ifis as [|ifi ifis IH]; intros ds c.
  { exists 0%nat, []. cbn. split; [done|]. split; [apply client_eta|].
    split; [constructor|done]. }
  cbn [Devices_loop].
  destruct (decide (addressable ifi)) as [Hifi|Hifi].
  - destruct (getDevice_addressable native kernel ifi c Hifi)
      as (req & Hreq & ->).
    set (c1 := mkClient (c_family c) (c_conn c ++ [req])).
    assert (∀ ds1, ∃ (n : nat) (reqs : list Request),
              (n ≤ length (ifi :: ifis))%nat
              ∧ (Devices_loop native kernel ifis ds1 c1).2
                = mkClient (c_family c) (c_conn c ++ reqs)
              ∧ Forall2 (request_for native (c_family c))
                  (filter addressable (take n (ifi :: ifis))) reqs
              ∧ ∀ ds', (Devices_loop native kernel ifis ds1 c1).1 = Ok ds' →
                       n = length (ifi :: ifis)) as Hnext.
    { intros ds1. destruct (IH ds1 c1) as (n & reqs & Hn & Hc & Hreqs & Hok).
      exists (S n), (req :: reqs). split; [cbn; lia|]. split; [|split].
      - rewrite Hc. cbn. by rewrite <- app_assoc.
      - change (take (S n) (ifi :: ifis)) with (ifi :: take n ifis).
        rewrite filter_cons_True by done. by constructor.
      - intros ds' Hds'. cbn. f_equal. by eapply Hok. }
    destruct (deviceOfAnswer native (kernel (c_conn c) req)) as [d|e];
      [apply Hnext|].
    destruct (os_IsNotExist e); [apply Hnext|].
    exists 1%nat, [req]. split; [cbn; lia|]. split; [done|].
    split; [|done]. change (take 1 (ifi :: ifis)) with [ifi].
    rewrite filter_cons_True by done.
    rewrite filter_nil. constructor; [done|constructor].
  - destruct (getDevice_not_addressable native kernel ifi c Hifi) as [e ->].
    destruct (os_IsNotExist e).
    + destruct (IH ds c) as (n & reqs & Hn & Hc & Hreqs & Hok).
      exists (S n), reqs. split; [cbn; lia|]. split; [done|]. split.
      * change (take (S n) (ifi :: ifis)) with (ifi :: take n ifis).
        by rewrite filter_cons_False by done.
      * intros ds' Hds'. cbn. f_equal. by eapply Hok.
    + exists 0%nat, []. split; [cbn; lia|]. split; [apply client_eta|].
      split; [constructor|done].
Qed.

(** X19: when the interfaces are listed, the requests [Devices] appends
    to the connection are, in the order of the interfaces, exactly one
    for each addressable interface among the first [n] interfaces, and
    none for another one; the request for an interface is the get-device
    dump request on the client's family that names this interface, by
    its index when that is not zero and by its name otherwise.  On
    success [Devices] went through all the interfaces and returns at
    most one device for each request; an error it returns is never a
    not-exist error: those only make it skip the interface. *)
Theorem Devices_requests (native : ByteOrder)
    (kernel : list Request → Request → result (list Message))
    (ifis : list Interface) (c : client) :
  ∃ (n : nat) (reqs : list Request),
    (n ≤ length ifis)%nat
    ∧ (Devices native kernel (Ok ifis) c).2
      = mkClient (c_family c) (c_conn c ++ reqs)
    ∧ Forall2 (request_for native (c_family c))
        (filter addressable (take n ifis)) reqs
    ∧ (length reqs ≤ length ifis)%nat
    ∧ Forall (get_request (c_family c)) reqs
    ∧ match (Devices native kernel (Ok ifis) c).1 with
      | Ok ds => n = length ifis ∧ (length ds ≤ length reqs)%nat
      | Err e => os_IsNotExist e = false
      end.
Proof.
  unfold Devices.
  destruct (Devices_loop_asked native kernel ifis [] c)
    as (n & reqs & Hn & Hc & Hasked & Hok).
  destruct (Devices_loop_trace native kernel ifis [] c)
    as (reqs' & Hc' & Hlen & Hreqs & Hres).
  assert (reqs' = reqs) as ->.
  { rewrite Hc in Hc'. injection Hc' as Happ.
    symmetry. by apply app_inv_head in Happ. }
  exists n, reqs. split; [done|]. split; [done|]. split; [done|].
  split; [done|]. split; [done|].
  destruct (Devices_loop _ _ _ _ _).1 as [ds|e] eqn:Hds; [|done].
  split; [by apply (Hok ds)|].
  by destruct Hres as (new & -> & Hnew & _).
Qed.

(** The requests of [Devices] on the two sample interfaces name the
    loopback interface first and the tunnel second. *)
Example Devices_sample_requests :
  ∃ r1 r2,
    (Devices LittleEndian kernel_no_device (Ok interfaces_sample) client0).2
    = mkClient (c_family client0) [r1; r2]
    ∧ UnmarshalAttributes LittleEndian (m_Data (req_msg r1))
      = Ok [mkAttribute DeviceAIfindex (bytes [1; 0; 0; 0])]
    ∧ UnmarshalAttributes LittleEndian (m_Data (req_msg r2))
      = Ok [mkAttribute DeviceAIfindex (bytes [3; 0; 0; 0])].
Proof.
  eexists _, _. split; [vm_compute; reflexivity|].
  split; vm_compute; reflexivity.
Qed.

(** X20: every device [Devices] returns is the decode, by [parseDevice],
    of an answer the kernel gave to a get-device dump request. *)
Theorem Devices_from_kernel_answers (native : ByteOrder)
    (kernel : list Request → Request → result (list Message))
    (ifis : list Interface) (c : client) (ds : list Device) :
  (Devices native kernel (Ok ifis) c).1 = Ok ds →
  Forall (decoded_answer native kernel (c_family c)) ds.
Proof.
  unfold Devices. intros Hds.
  destruct (Devices_loop_trace native kernel ifis [] c)
    as (reqs & _ & _ & _ & Hres).
  rewrite Hds in Hres. by destruct Hres as (new & -> & _ & Hdec).
Qed.

Lemma Devices_from_kernel_answers_witness :
  Forall (decoded_answer LittleEndian kernel_first_message
            (c_family client0))
    [dump_first_device; dump_first_device].
Proof.
  apply (Devices_from_kernel_answers LittleEndian kernel_first_message
           interfaces_sample client0).
  vm_compute. reflexivity.
Defined.

Lemma getDevice_not_wireguard (native : ByteOrder)
    (kernel : list Request → Request → result (list Message))
    (index : Z) (name : string) (c : client) :
  (∀ log req, kernel log req = Err (Errno ENODEV)
              ∨ kernel log req = Err (Errno ENOTSUP)) →
  index ≠ 0 ∨ Z.of_nat (length (nlenc_Bytes name)) ≤ 65531 →
  ∃ c', getDevice native kernel index name c = (Err ErrNotExist, c').
Proof.
  intros Hkernel Hifi.
  assert (∀ req, deviceOfAnswer native (kernel (c_conn c) req)
                 = Err ErrNotExist) as Hans.
  { intros req. unfold deviceOfAnswer, notExistOr.
    destruct (Hkernel (c_conn c) req) as [-> | ->];
      case_decide as Hno; try done; destruct Hno; auto. }
  assert (∀ attr, Z.of_nat (length (a_Data attr)) ≤ 65531 →
            ∃ c',
              match execute native kernel CmdGetDevice
                      (Z.lor HeaderFlagsRequest HeaderFlagsDump) [attr] c
              with
              | (Err e, c') => (Err e, c')
              | (Ok msgs, c') => (parseDevice native msgs, c')
              end = (Err ErrNotExist, c')) as Hone.
  { intros attr Hfit.
    destruct (MarshalAttributes_fits native [attr]) as [b Hb];
      [by repeat constructor|].
    rewrite (getDevice_framed native kernel attr b c Hb), Hans.
    by eexists. }
  unfold getDevice. destruct (decide (index ≠ 0)) as [Hindex|Hindex].
  - apply Hone. cbn. unfold nlenc_Uint32Bytes. rewrite length_PutUint. lia.
  - destruct (decide (name ≠ "")) as [Hname|Hname]; [|by eexists].
    apply Hone. cbn. by destruct Hifi.
Qed.

Lemma Devices_loop_not_wireguard (native : ByteOrder)
    (kernel : list Request → Request → result (list Message))
    (ifis : list Interface) :
  (∀ log req, kernel log req = Err (Errno ENODEV)
              ∨ kernel log req = Err (Errno ENOTSUP)) →
  Forall (λ ifi, ifi_Index ifi ≠ 0
                 ∨ Z.of_nat (length (nlenc_Bytes (ifi_Name ifi))) ≤ 65531)
    ifis →
  ∀ (ds : list Device) (c : client),
    (Devices_loop native kernel ifis ds c).1 = Ok ds.
Proof.
  intros Hkernel Hifis.
  induction Hifis as [|ifi ifis Hifi _ IH]; intros ds c; [done|].
  cbn [Devices_loop].
  destruct (getDevice_not_wireguard native kernel (ifi_Index ifi)
              (ifi_Name ifi) c Hkernel Hifi) as [c' ->].
  cbn. apply IH.
Qed.

(** X21: on a host where the kernel answers every request with [ENODEV]
    or [ENOTSUP] (no interface is a WireGuard device), [Devices] returns
    an empty list and no error, however many interfaces there are.  Each
    interface has a non-zero index or a name that fits an attribute. *)
Theorem Devices_no_wireguard (native : ByteOrder)
    (kernel : list Request → Request → result (list Message))
    (ifis : list Interface) (c : client) :
  (∀ log req, kernel log req = Err (Errno ENODEV)
              ∨ kernel log req = Err (Errno ENOTSUP)) →
  Forall (λ ifi, ifi_Index ifi ≠ 0
                 ∨ Z.of_nat (length (nlenc_Bytes (ifi_Name ifi))) ≤ 65531)
    ifis →
  (Devices native kernel (Ok ifis) c).1 = Ok [].
Proof.
  intros Hkernel Hifis. unfold Devices.
  by apply Devices_loop_not_wireguard.
Qed.

Lemma Devices_no_wireguard_witness :
  (Devices LittleEndian kernel_no_device (Ok interfaces_sample) client0).1
  = Ok [].
Proof.
  apply (Devices_no_wireguard LittleEndian kernel_no_device
           interfaces_sample client0).
  - intros log req. by left.
  - constructor; [left; discriminate|].
    constructor; [left; discriminate|]. constructor.
Defined.

(** ** Repeated attributes and unread fields *)

Lemma parseDevice_attr_keeps_peers (native : ByteOrder) (d d' : Device)
    (a : Attribute) :
  a_Type a ≠ DeviceAPeers →
  parseDevice_attr native d a = Ok d' →
  d_Peers d' = d_Peers d.
Proof.
  intros Ht. unfold parseDevice_attr.
  switch_cases Hd; apply Ok_inj in Hd as <-; done.
Qed.

(** X22: a message with more than one peers attribute yields the peers
    of the last one only: what an earlier peers attribute of the same
    message decoded to is replaced, not merged. *)
Theorem parseDeviceLoop_last_peers_attribute (native : ByteOrder)
    (m : Message) (pre post : list Attribute) (a : Attribute)
    (d : Device) :
  NewAttributeDecoder native (m_Data m) = Ok (pre ++ a :: post) →
  a_Type a = DeviceAPeers →
  absent DeviceAPeers post →
  parseDeviceLoop native m = Ok d →
  parsePeers native (a_Data a) = Ok (d_Peers d).
Proof.
  intros Hwalk Ha Hpost. unfold parseDeviceLoop.
  rewrite Hwalk, bind_Ok, foldM_app.
  destruct (foldM _ _ pre) as [d0|e]; [|done].
  rewrite bind_Ok. cbn [foldM].
  destruct a as [t data]. cbn in Ha. subst t.
  rewrite parseDevice_attr_peers. cbn [a_Data].
  destruct (parsePeers native data) as [ps|e]; [|done].
  rewrite bind_Ok. intros Hd. f_equal. symmetry.
  apply (foldM_invariant (parseDevice_attr native)
           (λ s, d_Peers s = ps) (λ a, a_Type a ≠ DeviceAPeers) post)
    with (s := set_d_Peers d0 ps); [|done|done|done].
  intros s a s' Hta Hs Hsa. rewrite <- Hs.
  by apply (parseDevice_attr_keeps_peers native s s' a).
Qed.

Lemma parseDeviceLoop_last_peers_attribute_witness :
  parsePeers LittleEndian
    (a_Data (nested DeviceAPeers [peer_record keyB []]))
  = Ok (d_Peers (device_of "wg0" [peer_of keyB []])).
Proof.
  apply (parseDeviceLoop_last_peers_attribute LittleEndian
           message_two_peer_lists
           [nested DeviceAPeers [peer_record keyA []];
            mkAttribute DeviceAIfname (nlenc_Bytes "wg0")]
           []
           (nested DeviceAPeers [peer_record keyB []])
           (device_of "wg0" [peer_of keyB []])).
  - vm_compute. reflexivity.
  - reflexivity.
  - constructor.
  - vm_compute. reflexivity.
Defined.

(** X23: [parseSockaddr] chooses between the IPv4 and the IPv6 layout by
    the payload's size alone and never reads the address family: a
    payload of 16 or 28 bytes decodes to the same endpoint whatever its
    first two bytes are. *)
Theorem parseSockaddr_family_not_read (native : ByteOrder)
    (b : list byte) (f1 f2 : byte) :
  length b = SizeofSockaddrInet4 ∨ length b = SizeofSockaddrInet6 →
  parseSockaddr native (f1 :: f2 :: drop 2 b) = parseSockaddr native b.
Proof.
  intros Hlen.
  assert (length (f1 :: f2 :: drop 2 b) = length b) as Hsame.
  { cbn. rewrite length_drop.
    unfold SizeofSockaddrInet4, SizeofSockaddrInet6 in Hlen. lia. }
  assert (∀ n, drop (S (S n)) (f1 :: f2 :: drop 2 b) = drop (S (S n)) b)
    as Hdrop.
  { intros n. cbn. by rewrite drop_drop. }
  unfold parseSockaddr. rewrite Hsame.
  repeat case_decide; [| |done].
  - cbn [castRawSockaddrInet4 sa4_Addr sa4_Port].
    by rewrite (Hdrop 0%nat), (Hdrop 2%nat).
  - cbn [castRawSockaddrInet6 sa6_Addr sa6_Port].
    by rewrite (Hdrop 0%nat), (Hdrop 6%nat).
Qed.

Lemma parseSockaddr_family_not_read_witness :
  parseSockaddr LittleEndian
    (Byte.x0a :: Byte.x00 :: drop 2 sockaddr_in_sample)
  = parseSockaddr LittleEndian sockaddr_in_sample.
Proof.
  apply (parseSockaddr_family_not_read LittleEndian sockaddr_in_sample).
  left. reflexivity.
Defined.
